(** * kiro2api: credential pool, usage probing and the Anthropic HTTP surface

    A shallow embedding of the parts of the Go sources that the
    specification's testable statements are about:

    - [auth]   : [processConfigs], [CheckUsageLimitsWithStatus]
    - [types]  : [UsageLimits], [TokenWithUsage.GetAvailableCount]
    - [server] : [ConfigStore], [maskEmail], the [/v1/messages] handler and
                 [handleNonStreamRequest]

    Conventions.  Go [string]s are byte strings ([string] of [ascii]).  Go
    [float64] quota quantities are read as the exact rationals they denote
    ([Q]); rounding, infinities and NaN are outside this model.  Go [int] is
    the 64-bit two's complement integer, written as [Z] with its wrap-around.
    Values decoded into [any]/[map[string]any] are [json] values whose objects
    are finite maps, as [encoding/json] produces them. *)

From Stdlib Require Import ZArith QArith Qminmax Lia Lqa Ascii String.
From stdpp Require Import gmap strings list fin_maps pretty.

#[local] Set Warnings "-register-all".
#[local] Open Scope string_scope.
#[local] Open Scope list_scope.

(* ===================================================================== *)
(** * Part I: the program *)
(* ===================================================================== *)

(** ** Dynamic JSON values ([any] after [json.Unmarshal]) *)

Inductive json : Type :=
  | JNull
  | JBool (b : bool)
  | JNum (q : Q)
  | JStr (s : string)
  | JArr (l : list json)
  | JObj (m : gmap string json).

(** A Go map value is either [nil] or a map; [None] stands for [nil]. *)
Definition gomap : Type := option (gmap string json).

(** ** Package strings of the Go standard library, as far as it is used *)

Module Strings.

(** [strings.Repeat(s, count)] *)
Fixpoint Repeat (s : string) (count : nat) : string :=
  match count with
  | O => ""
  | S n => s +:+ Repeat s n
  end.

(** [strings.Count(s, substr)] for a one-byte [substr]. *)
Fixpoint Count (s : string) (c : ascii) : nat :=
  match s with
  | EmptyString => 0
  | String b rest => (if Ascii.eqb b c then 1 else 0) + Count rest c
  end.

(** [strings.Split(s, sep)] for a one-byte separator: the pieces between
    the separators, one more than there are separators; [Split "" sep] is
    the one-element slice holding the empty string. *)
Fixpoint Split (s : string) (sep : ascii) : list string :=
  match s with
  | EmptyString => [""]
  | String b rest =>
      if Ascii.eqb b sep then "" :: Split rest sep
      else
        match Split rest sep with
        | piece :: pieces => String b piece :: pieces
        | [] => [String b ""]
        end
  end.

(** [strings.Contains(s, substr)] *)
Fixpoint Contains (s substr : string) : bool :=
  String.prefix substr s
  || match s with
     | EmptyString => false
     | String _ rest => Contains rest substr
     end.

(** [strings.Join(elems, sep)] *)
Fixpoint Join (elems : list string) (sep : string) : string :=
  match elems with
  | [] => ""
  | [e] => e
  | e :: rest => e +:+ sep +:+ Join rest sep
  end.

(** [strings.TrimSpace(s)]: leading and trailing white space removed, white
    space being the code points of [unicode.IsSpace].  A byte string starts
    (ends) with such a code point exactly when it starts (ends) with its
    UTF-8 encoding, so trimming strips these encodings from both ends. *)
Definition spaceEncodings : list (list N) :=
  [ [0x09]; [0x0A]; [0x0B]; [0x0C]; [0x0D]; [0x20];      (* \t \n \v \f \r ' ' *)
    [0xC2; 0x85]; [0xC2; 0xA0];                          (* U+0085, U+00A0 *)
    [0xE1; 0x9A; 0x80];                                  (* U+1680 *)
    [0xE2; 0x80; 0x80]; [0xE2; 0x80; 0x81]; [0xE2; 0x80; 0x82];
    [0xE2; 0x80; 0x83]; [0xE2; 0x80; 0x84]; [0xE2; 0x80; 0x85];
    [0xE2; 0x80; 0x86]; [0xE2; 0x80; 0x87]; [0xE2; 0x80; 0x88];
    [0xE2; 0x80; 0x89]; [0xE2; 0x80; 0x8A];              (* U+2000..U+200A *)
    [0xE2; 0x80; 0xA8]; [0xE2; 0x80; 0xA9];              (* U+2028, U+2029 *)
    [0xE2; 0x80; 0xAF]; [0xE2; 0x81; 0x9F];              (* U+202F, U+205F *)
    [0xE3; 0x80; 0x80] ]%N.                              (* U+3000 *)

Definition bytes (s : string) : list N := N_of_ascii <$> list_ascii_of_string s.
Definition ofBytes (bs : list N) : string := string_of_list_ascii (ascii_of_N <$> bs).

Fixpoint hasPrefix (bs prefix : list N) : bool :=
  match prefix, bs with
  | [], _ => true
  | p :: prefix, b :: bs => (p =? b)%N && hasPrefix bs prefix
  | _ :: _, [] => false
  end.

(** Strip encodings from the front; [fuel] bounds the number of strips and
    the length of the input is always enough. *)
Fixpoint trimFront (encodings : list (list N)) (fuel : nat) (bs : list N) : list N :=
  match fuel with
  | O => bs
  | S fuel =>
      match List.find (hasPrefix bs) encodings with
      | Some enc => trimFront encodings fuel (drop (length enc) bs)
      | None => bs
      end
  end.

Definition TrimSpace (s : string) : string :=
  let bs := bytes s in
  let bs := trimFront spaceEncodings (length bs) bs in
  let bs := rev (trimFront ((λ enc, rev enc) <$> spaceEncodings) (length bs) (rev bs)) in
  ofBytes bs.

(** [strings.HasPrefix(s, prefix)] *)
Definition HasPrefix (s prefix : string) : bool := String.prefix prefix s.

(** [strings.TrimPrefix(s, prefix)] *)
Definition TrimPrefix (s prefix : string) : string :=
  if HasPrefix s prefix
  then substring (String.length prefix) (String.length s - String.length prefix) s
  else s.

End Strings.

(** ** Package strconv of the Go standard library, as far as it is used *)

Module Strconv.

Definition digitValue (c : ascii) : option Z :=
  let n := Z.of_N (N_of_ascii c) in
  if ((48 <=? n) && (n <=? 57))%Z then Some (n - 48)%Z else None.

Fixpoint parseDigits (s : string) (acc : Z) : option Z :=
  match s with
  | EmptyString => Some acc
  | String c rest =>
      match digitValue c with
      | Some d => parseDigits rest (10 * acc + d)%Z
      | None => None
      end
  end.

(** [strconv.Atoi(s)] on a 64-bit platform: an optional sign and at least
    one decimal digit, nothing else, within the range of [int]; [None] is an
    error. *)
Definition Atoi (s : string) : option Z :=
  let '(negative, digits) :=
    match s with
    | String "+" rest => (false, rest)
    | String "-" rest => (true, rest)
    | _ => (false, s)
    end in
  if bool_decide (digits = "") then None
  else
    match parseDigits digits 0 with
    | None => None
    | Some n =>
        let v := if negative then (- n)%Z else n in
        if ((- 2 ^ 63 <=? v) && (v <? 2 ^ 63))%Z then Some v else None
    end.

End Strconv.

(** ** Package types (src/types/usage_limits.go) *)

Module Types.

#[local] Open Scope Q_scope.

Definition AccountStatusActive : string := "active".
Definition AccountStatusExhausted : string := "exhausted".
Definition AccountStatusBanned : string := "banned".
Definition AccountStatusExpired : string := "expired".
Definition AccountStatusDisabled : string := "disabled".
Definition AccountStatusError : string := "error".

(** Of each struct, the fields that the quota computations and the token
    list read. *)
Record FreeTrialInfo : Type := mkFreeTrialInfo {
  FreeTrialStatus : string;
  FreeTrial_UsageLimitWithPrecision : Q;
  FreeTrial_CurrentUsageWithPrecision : Q
}.

Record BonusInfo : Type := mkBonusInfo {
  BonusCode : string;
  Bonus_UsageLimit : Q;
  Bonus_CurrentUsage : Q
}.

Record UsageBreakdown : Type := mkUsageBreakdown {
  ResourceType : string;
  UsageLimitWithPrecision : Q;
  CurrentUsageWithPrecision : Q;
  FreeTrial : option FreeTrialInfo;   (* *FreeTrialInfo, nil is None *)
  Bonuses : list BonusInfo
}.

Record UsageLimits : Type := mkUsageLimits {
  UsageBreakdownList : list UsageBreakdown;
  UserInfo_Email : string
}.

Record TokenWithUsage : Type := mkTokenWithUsage {
  AccessToken : string;
  TokenUsageLimits : option UsageLimits;   (* *UsageLimits, nil is None *)
  IsUsageExceeded : bool
}.

(** [freeTrialInfo != nil && freeTrialInfo.FreeTrialStatus == "ACTIVE"] *)
Definition activeFreeTrial (breakdown : UsageBreakdown) : option FreeTrialInfo :=
  match FreeTrial breakdown with
  | Some ft => if bool_decide (FreeTrialStatus ft = "ACTIVE") then Some ft else None
  | None => None
  end.

(** The [for _, breakdown := range ...] loop of [GetAvailableCount]; it
    returns from inside the first CREDIT breakdown. *)
Fixpoint GetAvailableCount_range (breakdowns : list UsageBreakdown) : Q :=
  match breakdowns with
  | [] => 0
  | breakdown :: rest =>
      if bool_decide (ResourceType breakdown = "CREDIT") then
        let totalAvailable : Q := 0 in
        let totalAvailable :=
          match activeFreeTrial breakdown with
          | Some ft =>
              let freeTrialAvailable :=
                FreeTrial_UsageLimitWithPrecision ft
                - FreeTrial_CurrentUsageWithPrecision ft in
              totalAvailable + freeTrialAvailable
          | None => totalAvailable
          end in
        let baseAvailable :=
          UsageLimitWithPrecision breakdown - CurrentUsageWithPrecision breakdown in
        let totalAvailable := totalAvailable + baseAvailable in
        if Qlt_le_dec totalAvailable 0 then 0 else totalAvailable
      else GetAvailableCount_range rest
  end.

Definition GetAvailableCount (t : TokenWithUsage) : Q :=
  match TokenUsageLimits t with
  | None => 0
  | Some limits => GetAvailableCount_range (UsageBreakdownList limits)
  end.


(** [GenerateTokenPreview] *)
Definition GenerateTokenPreview (t : TokenWithUsage) : string :=
  if (String.length (AccessToken t) <=? 10)%nat then
    Strings.Repeat "*" (String.length (AccessToken t))
  else
    let suffix :=
      substring (String.length (AccessToken t) - 10) 10 (AccessToken t) in
    "***" +:+ suffix.

(** [types.TokenInfo], the fields the handlers read. *)
Record TokenInfo : Type := mkTokenInfo {
  Info_AccessToken : string;
  Info_RefreshToken : string
}.

(** *** The Anthropic request, as far as the handlers read it *)

Record AnthropicRequestMessage : Type := mkAnthropicRequestMessage {
  Role : string;
  Content : json          (* any: a string or an array of content blocks *)
}.

Record AnthropicTool : Type := mkAnthropicTool {
  Name : string;
  Description : string;
  InputSchema : gmap string json
}.

Record AnthropicRequest : Type := mkAnthropicRequest {
  Model : string;
  MaxTokens : Z;
  Messages : list AnthropicRequestMessage;
  System : list json;
  Tools : list AnthropicTool;
  Stream : bool
}.

Record CountTokensRequest : Type := mkCountTokensRequest {
  Count_Model : string;
  Count_System : list json;
  Count_Messages : list AnthropicRequestMessage;
  Count_Tools : list AnthropicTool
}.

End Types.

(** ** Package auth: credential records (src/unnamed/part_000) *)

Module Auth.

Record AuthConfig : Type := mkAuthConfig {
  AuthType : string;
  RefreshToken : string;
  ClientID : string;
  ClientSecret : string;
  Disabled : bool
}.

Definition AuthMethodSocial : string := "Social".
Definition AuthMethodIdC : string := "IdC".

Definition withAuthType (config : AuthConfig) (a : string) : AuthConfig :=
  {| AuthType := a;
     RefreshToken := RefreshToken config;
     ClientID := ClientID config;
     ClientSecret := ClientSecret config;
     Disabled := Disabled config |}.

(** The body of the [for _, config := range configs] loop: [None] is
    [continue], [Some c] is the record appended to [validConfigs]. *)
Definition processConfig (config : AuthConfig) : option AuthConfig :=
  if bool_decide (RefreshToken config = "") then None
  else
    let config :=
      if bool_decide (AuthType config = "")
      then withAuthType config AuthMethodSocial
      else config in
    if bool_decide (AuthType config = AuthMethodIdC)
       && (bool_decide (ClientID config = "")
           || bool_decide (ClientSecret config = ""))
    then None
    else if Disabled config then None
    else Some config.

Fixpoint processConfigs_from (validConfigs configs : list AuthConfig)
  : list AuthConfig :=
  match configs with
  | [] => validConfigs
  | config :: rest =>
      match processConfig config with
      | None => processConfigs_from validConfigs rest
      | Some c => processConfigs_from (validConfigs ++ [c]) rest
      end
  end.

Definition processConfigs (configs : list AuthConfig) : list AuthConfig :=
  processConfigs_from [] configs.

(** *** The usage prober (src/auth/usage_checker.go) *)

#[local] Open Scope Q_scope.

Inductive error : Type :=
  | ErrCreateRequest (cause : string)
  | ErrRequest (cause : string)
  | ErrReadResponse (cause : string)
  | ErrBanned (reason : string)
  | ErrStatusCode (code : Z) (body : string)
  | ErrParseResponse.

Record UsageCheckResult : Type := mkUsageCheckResult {
  UsageLimits : option Types.UsageLimits;
  Status : string;
  BanReason : string;
  Available : Q;
  TotalLimit : Q;
  TotalUsed : Q;
  Error : option error
}.

(** How the GET to the usage endpoint went: the three calls that can fail
    before a response is in hand, or a status code with the body read. *)
Inductive exchange : Type :=
  | NewRequestFailed (cause : string)
  | DoFailed (cause : string)
  | ReadAllFailed (cause : string)
  | Response (StatusCode : Z) (body : string).

Definition StatusOK : Z := 200%Z.

Definition withError (result : UsageCheckResult) (e : error) : UsageCheckResult :=
  {| UsageLimits := UsageLimits result; Status := Status result;
     BanReason := BanReason result; Available := Available result;
     TotalLimit := TotalLimit result; TotalUsed := TotalUsed result;
     Error := Some e |}.

Definition withTotals (result : UsageCheckResult) (limit used available : Q)
  : UsageCheckResult :=
  {| UsageLimits := UsageLimits result; Status := Status result;
     BanReason := BanReason result; Available := available;
     TotalLimit := limit; TotalUsed := used;
     Error := Error result |}.

Definition withStatus (result : UsageCheckResult) (s : string) : UsageCheckResult :=
  {| UsageLimits := UsageLimits result; Status := s;
     BanReason := BanReason result; Available := Available result;
     TotalLimit := TotalLimit result; TotalUsed := TotalUsed result;
     Error := Error result |}.

(** The inner [for _, bonus := range breakdown.Bonuses] loop. *)
Fixpoint addBonuses (bonuses : list Types.BonusInfo) (totals : Q * Q) : Q * Q :=
  match bonuses with
  | [] => totals
  | bonus :: rest =>
      addBonuses rest
        (fst totals + Types.Bonus_UsageLimit bonus,
         snd totals + Types.Bonus_CurrentUsage bonus)
  end.

(** The usage loop; it breaks after the first CREDIT breakdown. *)
Fixpoint tallyUsage (breakdowns : list Types.UsageBreakdown)
    (result : UsageCheckResult) : UsageCheckResult :=
  match breakdowns with
  | [] => result
  | breakdown :: rest =>
      if bool_decide (Types.ResourceType breakdown = "CREDIT") then
        let totals :=
          (Types.UsageLimitWithPrecision breakdown,
           Types.CurrentUsageWithPrecision breakdown) in
        let totals :=
          match Types.activeFreeTrial breakdown with
          | Some ft =>
              (fst totals + Types.FreeTrial_UsageLimitWithPrecision ft,
               snd totals + Types.FreeTrial_CurrentUsageWithPrecision ft)
          | None => totals
          end in
        let totals := addBonuses (Types.Bonuses breakdown) totals in
        let available := fst totals - snd totals in
        let available := if Qlt_le_dec available 0 then 0 else available in
        withTotals result (fst totals) (snd totals) available
      else tallyUsage rest result
  end.

Section UsageLimitsChecker.

(** [utils.SafeUnmarshal] at the two types it is used at: into a
    [map[string]any] and into a [types.UsageLimits]. [None] is a
    non-nil error. *)
Variable SafeUnmarshal_map : string → option (gmap string json).
Variable SafeUnmarshal_UsageLimits : string → option Types.UsageLimits.

Definition CheckUsageLimitsWithStatus (x : exchange) : UsageCheckResult :=
  let result :=
    {| UsageLimits := None; Status := Types.AccountStatusError;
       BanReason := ""; Available := 0; TotalLimit := 0; TotalUsed := 0;
       Error := None |} in
  match x with
  | NewRequestFailed cause => withError result (ErrCreateRequest cause)
  | DoFailed cause => withError result (ErrRequest cause)
  | ReadAllFailed cause => withError result (ErrReadResponse cause)
  | Response StatusCode body =>
      if bool_decide (StatusCode ≠ StatusOK) then
        let unbanned := withError result (ErrStatusCode StatusCode body) in
        match SafeUnmarshal_map body with
        | Some errorResp =>
            match errorResp !! "reason" with
            | Some (JStr reason) =>
                {| UsageLimits := None; Status := Types.AccountStatusBanned;
                   BanReason := reason; Available := 0; TotalLimit := 0;
                   TotalUsed := 0; Error := Some (ErrBanned reason) |}
            | _ => unbanned
            end
        | None => unbanned
        end
      else
        match SafeUnmarshal_UsageLimits body with
        | None => withError result ErrParseResponse
        | Some usageLimits =>
            let result :=
              {| UsageLimits := Some usageLimits;
                 Status := Types.AccountStatusError;
                 BanReason := ""; Available := 0; TotalLimit := 0;
                 TotalUsed := 0; Error := None |} in
            let result :=
              tallyUsage (Types.UsageBreakdownList usageLimits) result in
            if Qlt_le_dec 0 (Available result)
            then withStatus result Types.AccountStatusActive
            else withStatus result Types.AccountStatusExhausted
        end
  end.

End UsageLimitsChecker.

(** [IsBannedError]; an [error] is seen through its [Error()] text, [None]
    being [nil]. *)
Definition IsBannedError (err : option string) : bool * string :=
  match err with
  | None => (false, "")
  | Some errStr =>
      if Strings.HasPrefix errStr "BANNED:"
      then (true, Strings.TrimPrefix errStr "BANNED:")
      else (false, "")
  end.

Section UsageLimitsCompat.

Variable SafeUnmarshal_map : string → option (gmap string json).
Variable SafeUnmarshal_UsageLimits : string → option Types.UsageLimits.

(** The text of the error [SafeUnmarshal] gave for the 200 body. *)
Variable unmarshalErrorText : string.

(** The [Error()] text of the errors [CheckUsageLimitsWithStatus] builds
    with [fmt.Errorf]. *)
Definition errorText (e : error) : string :=
  match e with
  | ErrCreateRequest cause => "创建请求失败: " +:+ cause
  | ErrRequest cause => "请求失败: " +:+ cause
  | ErrReadResponse cause => "读取响应失败: " +:+ cause
  | ErrBanned reason => "账号被封禁: " +:+ reason
  | ErrStatusCode code body =>
      "请求失败: 状态码 " +:+ pretty code +:+ ", 响应: " +:+ body
  | ErrParseResponse => "解析响应失败: " +:+ unmarshalErrorText
  end.

(** [CheckUsageLimits]: the limits, or the text of the error. *)
Definition CheckUsageLimits (x : exchange)
  : option Types.UsageLimits * option string :=
  let result :=
    CheckUsageLimitsWithStatus SafeUnmarshal_map SafeUnmarshal_UsageLimits x in
  match Error result with
  | Some e =>
      if bool_decide (Status result = Types.AccountStatusBanned)
      then (None, Some ("BANNED:" +:+ BanReason result))
      else (None, Some (errorText e))
  | None => (UsageLimits result, None)
  end.

End UsageLimitsCompat.

(** *** Loading the credentials (src/unnamed/part_000) *)

(** What the process sees of its surroundings: the environment variables
    and, per path, a directory, a file with its content ([None] when it
    cannot be read), or nothing that [os.Stat] finds. *)
Inductive node : Type :=
  | Directory
  | RegularFile (content : option string).

Record OS : Type := mkOS {
  environ : gmap string string;
  files : gmap string node
}.

(** [os.Getenv] *)
Definition Getenv (os : OS) (key : string) : string :=
  default "" (environ os !! key).

(** [fileInfo, err := os.Stat(path); err == nil && !fileInfo.IsDir()] *)
Definition statsAsFile (os : OS) (path : string) : bool :=
  match files os !! path with
  | Some (RegularFile _) => true
  | _ => false
  end.

(** [os.ReadFile]; [None] is an error. *)
Definition ReadFile (os : OS) (path : string) : option string :=
  match files os !! path with
  | Some (RegularFile content) => content
  | _ => None
  end.

Inductive loadError : Type :=
  | ErrNoAuthConfig          (* 未找到有效的认证配置 *)
  | ErrReadConfigFile        (* 读取配置文件失败 *)
  | ErrParseAuthToken        (* 解析KIRO_AUTH_TOKEN失败 *)
  | ErrEmptyAuthToken        (* KIRO_AUTH_TOKEN配置为空 *)
  | ErrNoValidConfig.        (* 没有有效的认证配置 *)

Section LoadConfigs.

(** [json.Unmarshal] into a [[]AuthConfig] and into an [AuthConfig];
    [None] is an error. *)
Variable Unmarshal_configs : string → option (list AuthConfig).
Variable Unmarshal_config : string → option AuthConfig.

Definition parseJSONConfig (jsonData : string) : option (list AuthConfig) :=
  match Unmarshal_configs jsonData with
  | Some configs => Some configs
  | None =>
      match Unmarshal_config jsonData with
      | Some single => Some [single]
      | None => None
      end
  end.

(** The first half of [loadConfigs]: the configuration file, when it gives
    at least one valid record. *)
Definition loadFromConfigFile (os : OS) : option (list AuthConfig) :=
  let configFilePath := Getenv os "AUTH_CONFIG_FILE" in
  let configFilePath :=
    if bool_decide (configFilePath = "") then "./auth_config.json"
    else configFilePath in
  if statsAsFile os configFilePath then
    match ReadFile os configFilePath with
    | Some content =>
        if (2 <? String.length content)%nat then
          match parseJSONConfig content with
          | Some configs =>
              if (0 <? length configs)%nat then
                let validConfigs := processConfigs configs in
                if (0 <? length validConfigs)%nat then Some validConfigs
                else None
              else None
          | None => None
          end
        else None
    | None => None
    end
  else None.

Definition loadConfigs (os : OS) : list AuthConfig + loadError :=
  match loadFromConfigFile os with
  | Some validConfigs => inl validConfigs
  | None =>
      let jsonData := Getenv os "KIRO_AUTH_TOKEN" in
      if bool_decide (jsonData = "") then inr ErrNoAuthConfig
      else
        let configData :=
          if statsAsFile os jsonData then ReadFile os jsonData
          else Some jsonData in
        match configData with
        | None => inr ErrReadConfigFile
        | Some configData =>
            match parseJSONConfig configData with
            | None => inr ErrParseAuthToken
            | Some configs =>
                if (length configs =? 0)%nat then inr ErrEmptyAuthToken
                else
                  let validConfigs := processConfigs configs in
                  if (length validConfigs =? 0)%nat then inr ErrNoValidConfig
                  else inl validConfigs
            end
        end
  end.

(** [GetConfigs] *)
Definition GetConfigs (os : OS) : list AuthConfig + loadError := loadConfigs os.

End LoadConfigs.

End Auth.


(** ** Package server *)

Module Server.

(** *** The credential store (src/server/config_handler.go) *)

Record ConfigStore : Type := mkConfigStore {
  configs : list Auth.AuthConfig;
  filePath : string
}.

(** What a file holds: the JSON array [json.MarshalIndent] wrote, read back
    as the list it denotes, or bytes that are no such array. *)
Inductive file : Type :=
  | Stored (records : list Auth.AuthConfig)
  | Truncated.

Inductive storeError : Type :=
  | ErrNotExist
  | ErrMarshal
  | ErrWriteFile.

(** The ways [save] can fail: [json.MarshalIndent] returns an error, or
    [os.WriteFile] does, before it opened the file or after it truncated it. *)
Inductive fault : Type :=
  | MarshalFails
  | OpenFails
  | WriteFails.

(** [save] against a file system; [mishap] is what goes wrong, if anything. *)
Definition save (cs : ConfigStore) (fs : gmap string file) (mishap : option fault)
  : gmap string file * option storeError :=
  match mishap with
  | Some MarshalFails => (fs, Some ErrMarshal)
  | Some OpenFails => (fs, Some ErrWriteFile)
  | Some WriteFails => (<[filePath cs := Truncated]> fs, Some ErrWriteFile)
  | None => (<[filePath cs := Stored (configs cs)]> fs, None)
  end.

Definition withConfigs (cs : ConfigStore) (l : list Auth.AuthConfig) : ConfigStore :=
  {| configs := l; filePath := filePath cs |}.

Definition AddConfig (cs : ConfigStore) (fs : gmap string file)
    (config : Auth.AuthConfig) (mishap : option fault)
  : ConfigStore * gmap string file * option storeError :=
  let cs := withConfigs cs (configs cs ++ [config]) in
  let '(fs, err) := save cs fs mishap in
  (cs, fs, err).

Definition UpdateConfig (cs : ConfigStore) (fs : gmap string file)
    (index : Z) (config : Auth.AuthConfig) (mishap : option fault)
  : ConfigStore * gmap string file * option storeError :=
  if ((index <? 0) || (index >=? Z.of_nat (length (configs cs))))%Z then
    (cs, fs, Some ErrNotExist)
  else
    let cs := withConfigs cs (<[Z.to_nat index := config]> (configs cs)) in
    let '(fs, err) := save cs fs mishap in
    (cs, fs, err).

Definition DeleteConfig (cs : ConfigStore) (fs : gmap string file)
    (index : Z) (mishap : option fault)
  : ConfigStore * gmap string file * option storeError :=
  if ((index <? 0) || (index >=? Z.of_nat (length (configs cs))))%Z then
    (cs, fs, Some ErrNotExist)
  else
    let cs :=
      withConfigs cs
        (take (Z.to_nat index) (configs cs) ++ drop (Z.to_nat (index + 1)) (configs cs)) in
    let '(fs, err) := save cs fs mishap in
    (cs, fs, err).

(** [load] against a file system; [readFails] stands for an [os.ReadFile]
    error other than the file not existing. *)
Inductive loadFailure : Type :=
  | ErrReadFile
  | ErrUnmarshal.

Definition load (cs : ConfigStore) (fs : gmap string file) (readFails : bool)
  : ConfigStore * option loadFailure :=
  if readFails then (cs, Some ErrReadFile)
  else
    match fs !! filePath cs with
    | None => (withConfigs cs [], None)
    | Some (Stored records) => (withConfigs cs records, None)
    | Some Truncated => (cs, Some ErrUnmarshal)
    end.

(** [InitConfigStore]: the store the global variable is set to, and the
    error of [load]. *)
Definition InitConfigStore (path : string) (fs : gmap string file) (readFails : bool)
  : ConfigStore * option loadFailure :=
  load {| configs := []; filePath := path |} fs readFails.

(** [GetConfigs]: a copy of the list. *)
Definition GetConfigs (cs : ConfigStore) : list Auth.AuthConfig := configs cs.

(** [os.IsNotExist(err)] on the errors of the store. *)
Definition IsNotExist (err : storeError) : bool :=
  match err with
  | ErrNotExist => true
  | _ => false
  end.

Definition StatusOK : Z := 200.
Definition StatusNotFound : Z := 404.
Definition StatusInternalServerError : Z := 500.

(** The checks of [handleAddConfig] and [handleUpdateConfig] on the bound
    body: [None] is a 400, [Some] the record to store. *)
Definition validateConfig (config : Auth.AuthConfig) : option Auth.AuthConfig :=
  if bool_decide (Auth.RefreshToken config = "") then None
  else
    let config :=
      if bool_decide (Auth.AuthType config = "")
      then Auth.withAuthType config Auth.AuthMethodSocial
      else config in
    if bool_decide (Auth.AuthType config = Auth.AuthMethodIdC)
       && (bool_decide (Auth.ClientID config = "")
           || bool_decide (Auth.ClientSecret config = ""))
    then None
    else Some config.

(** [handleAddConfig]; [configStore] is the global, [None] when never
    initialised, [bound] what [ShouldBindJSON] made of the body, [None] on
    its error.  The result is the global, the file system and the status
    of the answer. *)
Definition handleAddConfig (configStore : option ConfigStore)
    (fs : gmap string file) (bound : option Auth.AuthConfig) (mishap : option fault)
  : option ConfigStore * gmap string file * Z :=
  match configStore with
  | None => (None, fs, StatusInternalServerError)
  | Some cs =>
      match bound with
      | None => (Some cs, fs, 400%Z)
      | Some config =>
          match validateConfig config with
          | None => (Some cs, fs, 400%Z)
          | Some config =>
              let '(cs, fs, err) := AddConfig cs fs config mishap in
              match err with
              | Some _ => (Some cs, fs, StatusInternalServerError)
              | None => (Some cs, fs, StatusOK)
              end
          end
      end
  end.

(** [handleUpdateConfig]; [indexStr] is the path parameter. *)
Definition handleUpdateConfig (configStore : option ConfigStore)
    (fs : gmap string file) (indexStr : string) (bound : option Auth.AuthConfig)
    (mishap : option fault)
  : option ConfigStore * gmap string file * Z :=
  match configStore with
  | None => (None, fs, StatusInternalServerError)
  | Some cs =>
      match Strconv.Atoi indexStr with
      | None => (Some cs, fs, 400%Z)
      | Some index =>
          match bound with
          | None => (Some cs, fs, 400%Z)
          | Some config =>
              match validateConfig config with
              | None => (Some cs, fs, 400%Z)
              | Some config =>
                  let '(cs, fs, err) := UpdateConfig cs fs index config mishap in
                  match err with
                  | Some e =>
                      if IsNotExist e then (Some cs, fs, StatusNotFound)
                      else (Some cs, fs, StatusInternalServerError)
                  | None => (Some cs, fs, StatusOK)
                  end
              end
          end
      end
  end.

(** [handleDeleteConfig] *)
Definition handleDeleteConfig (configStore : option ConfigStore)
    (fs : gmap string file) (indexStr : string) (mishap : option fault)
  : option ConfigStore * gmap string file * Z :=
  match configStore with
  | None => (None, fs, StatusInternalServerError)
  | Some cs =>
      match Strconv.Atoi indexStr with
      | None => (Some cs, fs, 400%Z)
      | Some index =>
          let '(cs, fs, err) := DeleteConfig cs fs index mishap in
          match err with
          | Some e =>
              if IsNotExist e then (Some cs, fs, StatusNotFound)
              else (Some cs, fs, StatusInternalServerError)
          | None => (Some cs, fs, StatusOK)
          end
      end
  end.

(** *** Email masking for /api/tokens (src/server/config_handler.go) *)

(** The loop and the two assignments that fill [maskedParts] when the domain
    has three labels or more. *)
Definition maskDomainParts (domainParts : list string) : list string :=
  let n := length domainParts in
  let maskedParts := replicate n "" in
  let maskedParts :=
    foldl (λ maskedParts i,
             <[i := Strings.Repeat "*" (String.length (domainParts !!! i))]> maskedParts)
          maskedParts (seq 0 (n - 2)) in
  let maskedParts := <[n - 2 := domainParts !!! (n - 2)]> maskedParts in
  <[n - 1 := domainParts !!! (n - 1)]> maskedParts.

Definition maskUsername (username : string) : string :=
  if (String.length username <=? 4)%nat then
    Strings.Repeat "*" (String.length username)
  else
    let prefix := substring 0 2 username in
    let suffix := substring (String.length username - 2) 2 username in
    let middleLen := String.length username - 4 in
    prefix +:+ Strings.Repeat "*" middleLen +:+ suffix.

Definition maskDomain (domain : string) : string :=
  let domainParts := Strings.Split domain "." in
  if (length domainParts =? 1)%nat then
    Strings.Repeat "*" (String.length domain)
  else if (length domainParts =? 2)%nat then
    Strings.Repeat "*" (String.length (domainParts !!! 0))
    +:+ "." +:+ domainParts !!! 1
  else
    Strings.Join (maskDomainParts domainParts) ".".

Definition maskEmail (email : string) : string :=
  if bool_decide (email = "") then ""
  else
    match Strings.Split email "@" with
    | [username; domain] => maskUsername username +:+ "@" +:+ maskDomain domain
    | _ => email
    end.

(** [createTokenPreview] *)
Definition createTokenPreview (token : string) : string :=
  if (String.length token <=? 10)%nat then
    Strings.Repeat "*" (String.length token)
  else
    let suffix := substring (String.length token - 10) 10 token in
    "***" +:+ suffix.

(** The [user_email] entry [handleTokenPoolAPI] builds for a token whose
    usage probe returned [usageResult]. *)
Definition tokenUserEmail (usageResult : Auth.UsageCheckResult) : string :=
  let userEmail := "未知用户" in
  let userEmail :=
    match Auth.UsageLimits usageResult with
    | Some limits =>
        if bool_decide (Types.UserInfo_Email limits ≠ "")
        then Types.UserInfo_Email limits
        else userEmail
    | None => userEmail
    end in
  maskEmail userEmail.

(** *** Batch import (src/server/config_handler.go) *)

Record ImportAccountInput : Type := mkImportAccountInput {
  Import_RefreshToken : string;
  Import_ClientID : string;
  Import_ClientSecret : string;
  Import_Region : string;
  Import_Provider : string
}.

(** [ImportResult] without its message. *)
Record ImportResult : Type := mkImportResult {
  Result_Index : Z;
  Result_Email : string;
  Result_Status : string
}.

Inductive importAnswer : Type :=
  | ImportRefused (status : Z)
  | ImportDone (total success failed : Z) (results : list ImportResult).

(** The email of the probed account, when the probe has one. *)
Definition probedEmail (usageResult : Auth.UsageCheckResult) : option string :=
  match Auth.UsageLimits usageResult with
  | Some limits =>
      if bool_decide (Types.UserInfo_Email limits ≠ "")
      then Some (Types.UserInfo_Email limits)
      else None
  | None => None
  end.

Definition withRefreshToken (config : Auth.AuthConfig) (r : string) : Auth.AuthConfig :=
  {| Auth.AuthType := Auth.AuthType config;
     Auth.RefreshToken := r;
     Auth.ClientID := Auth.ClientID config;
     Auth.ClientSecret := Auth.ClientSecret config;
     Auth.Disabled := Auth.Disabled config |}.

Section ImportConfig.

(** The calls that leave the process, each with the turn of the loop it is
    made in, so that the same argument may meet different answers:
    [auth.RefreshIdCToken], [auth.RefreshSocialToken] ([None] is an error),
    the exchange with the usage endpoint, and what goes wrong with the save. *)
Variable RefreshIdCToken : nat → Auth.AuthConfig → option Types.TokenInfo.
Variable RefreshSocialToken : nat → string → option Types.TokenInfo.
Variable usageExchange : nat → Types.TokenInfo → Auth.exchange.
Variable saveMishap : nat → option fault.
Variable SafeUnmarshal_map : string → option (gmap string json).
Variable SafeUnmarshal_UsageLimits : string → option Types.UsageLimits.

(** One turn of the loop over [inputs]: the store, the file system, the
    result appended to [results] and whether [successCount] is increased. *)
Definition importAccount (i : nat) (input : ImportAccountInput)
    (cs : ConfigStore) (fs : gmap string file)
  : ConfigStore * gmap string file * ImportResult * bool :=
  let result (email status : string) :=
    {| Result_Index := Z.of_nat i; Result_Email := email;
       Result_Status := status |} in
  if bool_decide (Import_RefreshToken input = "") then
    (cs, fs, result "" "error", false)
  else
    let isIdC :=
      negb (bool_decide (Import_ClientID input = ""))
      && negb (bool_decide (Import_ClientSecret input = "")) in
    let authConfig :=
      if isIdC then
        {| Auth.AuthType := Auth.AuthMethodIdC;
           Auth.RefreshToken := Import_RefreshToken input;
           Auth.ClientID := Import_ClientID input;
           Auth.ClientSecret := Import_ClientSecret input;
           Auth.Disabled := false |}
      else
        {| Auth.AuthType := Auth.AuthMethodSocial;
           Auth.RefreshToken := Import_RefreshToken input;
           Auth.ClientID := ""; Auth.ClientSecret := "";
           Auth.Disabled := false |} in
    let refreshed :=
      if isIdC then RefreshIdCToken i authConfig
      else RefreshSocialToken i (Import_RefreshToken input) in
    match refreshed with
    | None => (cs, fs, result "" "error", false)
    | Some tokenInfo =>
        let usageResult :=
          Auth.CheckUsageLimitsWithStatus SafeUnmarshal_map
            SafeUnmarshal_UsageLimits (usageExchange i tokenInfo) in
        if bool_decide (Auth.Status usageResult = Types.AccountStatusBanned) then
          (cs, fs, result (default "" (probedEmail usageResult)) "banned", false)
        else
          match Auth.Error usageResult with
          | Some _ => (cs, fs, result "" "error", false)
          | None =>
              let email := default "unknown" (probedEmail usageResult) in
              let authConfig :=
                if bool_decide (Types.Info_RefreshToken tokenInfo ≠ "")
                then withRefreshToken authConfig (Types.Info_RefreshToken tokenInfo)
                else authConfig in
              let '(cs, fs, err) := AddConfig cs fs authConfig (saveMishap i) in
              match err with
              | Some _ => (cs, fs, result email "error", false)
              | None => (cs, fs, result email "success", true)
              end
          end
    end.

Fixpoint importAccounts (i : nat) (inputs : list ImportAccountInput)
    (cs : ConfigStore) (fs : gmap string file)
    (results : list ImportResult) (successCount : Z)
  : ConfigStore * gmap string file * list ImportResult * Z :=
  match inputs with
  | [] => (cs, fs, results, successCount)
  | input :: rest =>
      let '(cs, fs, result, success) := importAccount i input cs fs in
      importAccounts (S i) rest cs fs (results ++ [result])
        (if success then successCount + 1 else successCount)%Z
  end.

(** [handleImportConfig]; [bound] is what [ShouldBindJSON] made of the
    body. *)
Definition handleImportConfig (configStore : option ConfigStore)
    (fs : gmap string file) (bound : option (list ImportAccountInput))
  : option ConfigStore * gmap string file * importAnswer :=
  match configStore with
  | None => (None, fs, ImportRefused StatusInternalServerError)
  | Some cs =>
      match bound with
      | None => (Some cs, fs, ImportRefused 400%Z)
      | Some inputs =>
          if (length inputs =? 0)%nat then (Some cs, fs, ImportRefused 400%Z)
          else
            let '(cs, fs, results, successCount) :=
              importAccounts 0 inputs cs fs [] 0%Z in
            (Some cs, fs,
             ImportDone (Z.of_nat (length inputs)) successCount
               (Z.of_nat (length inputs) - successCount)%Z results)
      end
  end.

End ImportConfig.

(** *** The token list of /api/tokens (src/server/config_handler.go) *)

(** One entry of [tokenList], without its times and its auth type. *)
Record TokenData : Type := mkTokenData {
  Token_index : Z;
  Token_user_email : string;
  Token_token_preview : string;
  Token_remaining_usage : Q;
  Token_status : string;
  Token_status_text : string
}.

Inductive poolAnswer : Type :=
  | PoolError (status : Z)
  | PoolList (total_tokens active_tokens : Z) (tokens : list TokenData)
      (pool_total pool_active : Z).

Section TokenPool.

(** The calls that leave the process, each with the turn of the loop it is
    made in; [IsExpired] is the method of [TokenInfo]. *)
Variable RefreshIdCToken : nat → Auth.AuthConfig → option Types.TokenInfo.
Variable RefreshSocialToken : nat → string → option Types.TokenInfo.
Variable IsExpired : nat → Types.TokenInfo → bool.
Variable usageExchange : nat → Types.TokenInfo → Auth.exchange.
Variable SafeUnmarshal_map : string → option (gmap string json).
Variable SafeUnmarshal_UsageLimits : string → option Types.UsageLimits.

(** [refreshSingleTokenByConfig] *)
Definition refreshSingleTokenByConfig (i : nat) (config : Auth.AuthConfig)
  : option Types.TokenInfo :=
  if bool_decide (Auth.AuthType config = Auth.AuthMethodSocial) then
    RefreshSocialToken i (Auth.RefreshToken config)
  else if bool_decide (Auth.AuthType config = Auth.AuthMethodIdC) then
    RefreshIdCToken i config
  else None.

(** One turn of the loop over [configs]: the entry appended to [tokenList]
    and whether [activeCount] is increased. *)
Definition tokenData (i : nat) (authConfig : Auth.AuthConfig) : TokenData * bool :=
  if Auth.Disabled authConfig then
    ({| Token_index := Z.of_nat i; Token_user_email := "已禁用";
        Token_token_preview := "***已禁用"; Token_remaining_usage := 0;
        Token_status := Types.AccountStatusDisabled;
        Token_status_text := "已禁用" |}, false)
  else
    match refreshSingleTokenByConfig i authConfig with
    | None =>
        ({| Token_index := Z.of_nat i; Token_user_email := "获取失败";
            Token_token_preview := createTokenPreview (Auth.RefreshToken authConfig);
            Token_remaining_usage := 0;
            Token_status := Types.AccountStatusError;
            Token_status_text := "错误" |}, false)
    | Some tokenInfo =>
        if IsExpired i tokenInfo then
          ({| Token_index := Z.of_nat i; Token_user_email := "已过期";
              Token_token_preview :=
                createTokenPreview (Types.Info_AccessToken tokenInfo);
              Token_remaining_usage := 0;
              Token_status := Types.AccountStatusExpired;
              Token_status_text := "已过期" |}, false)
        else
          let usageResult :=
            Auth.CheckUsageLimitsWithStatus SafeUnmarshal_map
              SafeUnmarshal_UsageLimits (usageExchange i tokenInfo) in
          let status := Auth.Status usageResult in
          let entry (status_text : string) :=
            {| Token_index := Z.of_nat i;
               Token_user_email := tokenUserEmail usageResult;
               Token_token_preview :=
                 createTokenPreview (Types.Info_AccessToken tokenInfo);
               Token_remaining_usage := Auth.Available usageResult;
               Token_status := status;
               Token_status_text := status_text |} in
          if bool_decide (status = Types.AccountStatusActive) then
            (entry "可用", true)
          else if bool_decide (status = Types.AccountStatusExhausted) then
            (entry "已耗尽", false)
          else if bool_decide (status = Types.AccountStatusBanned) then
            (entry "已封禁", false)
          else if bool_decide (status = Types.AccountStatusError) then
            (entry "错误", false)
          else (entry "未知", false)
    end.

Fixpoint tokenEntries (i : nat) (configs : list Auth.AuthConfig)
    (tokenList : list TokenData) (activeCount : Z) : list TokenData * Z :=
  match configs with
  | [] => (tokenList, activeCount)
  | authConfig :: rest =>
      let '(entry, active) := tokenData i authConfig in
      tokenEntries (S i) rest (tokenList ++ [entry])
        (if active then activeCount + 1 else activeCount)%Z
  end.

(** [handleTokenPoolAPI]; [loaded] is what [auth.GetConfigs] returned. *)
Definition handleTokenPoolAPI (loaded : list Auth.AuthConfig + Auth.loadError)
  : poolAnswer :=
  match loaded with
  | inr _ => PoolError StatusInternalServerError
  | inl configs =>
      if (length configs =? 0)%nat then PoolList 0 0 [] 0 0
      else
        let '(tokenList, activeCount) := tokenEntries 0 configs [] 0%Z in
        PoolList (Z.of_nat (length tokenList)) activeCount tokenList
          (Z.of_nat (length configs)) activeCount
  end.

End TokenPool.

(** *** Request headers kept for the log (src/server/config_handler.go) *)

Definition headerKeys : list string :=
  [ "Content-Type"; "Authorization"; "X-API-Key"; "X-Request-ID";
    "X-Forwarded-For"; "Accept"; "Accept-Encoding" ].

(** What is stored under [key] for a header of value [value]. *)
Definition loggedHeader (key value : string) : string :=
  if bool_decide (key = "Authorization") && (20 <? String.length value)%nat then
    substring 0 10 value +:+ "***"
    +:+ substring (String.length value - 7) 7 value
  else if bool_decide (key = "X-API-Key") && (10 <? String.length value)%nat then
    substring 0 5 value +:+ "***"
    +:+ substring (String.length value - 3) 3 value
  else value.

(** [extractRelevantHeaders]; [GetHeader] is [c.GetHeader]. *)
Definition extractRelevantHeaders (GetHeader : string → string)
  : gmap string string :=
  foldl (λ relevantHeaders key,
           let value := GetHeader key in
           if bool_decide (value ≠ "")
           then <[key := loggedHeader key value]> relevantHeaders
           else relevantHeaders)
        ∅ headerKeys.

(** *** Go [int]: 64-bit two's complement *)

Definition wrap64 (z : Z) : Z := ((z + 2 ^ 63) mod 2 ^ 64 - 2 ^ 63)%Z.
Definition int_add (a b : Z) : Z := wrap64 (a + b).

(** *** The stop-reason manager *)

(** Modelled from the spec: the stop-reason manager ([StopReasonManager]
    with [NewStopReasonManager], [UpdateToolCallStatus] and
    [DetermineStopReason]) is not among the sources.  The specification gives
    the policy its inputs, [sawToolUse], [toolsWereRequested], [hitMaxTokens]
    and the upstream's terminal hint (here: whether a stop sequence matched),
    and the priority tool_use (when [sawToolUse] and [toolsWereRequested]),
    then max_tokens, then stop_sequence, then end_turn. *)
Record StopReasonManager : Type := mkStopReasonManager {
  sawToolUse : bool;
  toolsWereRequested : bool;
  hitMaxTokens : bool;
  stopSequenceMatched : bool
}.

(** Modelled from the spec: [UpdateToolCallStatus] records the two tool
    flags of the policy and leaves the other inputs alone. *)
Definition UpdateToolCallStatus (m : StopReasonManager) (saw requested : bool)
  : StopReasonManager :=
  {| sawToolUse := saw; toolsWereRequested := requested;
     hitMaxTokens := hitMaxTokens m;
     stopSequenceMatched := stopSequenceMatched m |}.

(** Modelled from the spec: [DetermineStopReason], the priority order of the
    specification's stop-reason rule. *)
Definition DetermineStopReason (m : StopReasonManager) : string :=
  if sawToolUse m && toolsWereRequested m then "tool_use"
  else if hitMaxTokens m then "max_tokens"
  else if stopSequenceMatched m then "stop_sequence"
  else "end_turn".

(** *** The non-streaming handler (src/server/config_handler.go) *)

(** [parser.ToolExecution], the fields the handler reads. *)
Record ToolExecution : Type := mkToolExecution {
  ID : string;
  Name : string;
  Arguments : gomap
}.

(** What came back before the response is assembled: the upstream request
    failed, the body could not be read, the parser failed (or timed out), or
    the parser produced the completion text and the tool manager's active
    and completed tools. *)
Inductive upstream : Type :=
  | RequestFailed
  | ReadFailed
  | ParseFailed (cause : string)
  | Parsed (textAgg : string) (activeTools completedTools : list ToolExecution).

Record Usage : Type := mkUsage {
  input_tokens : Z;
  output_tokens : Z
}.

Record AnthropicResponse : Type := mkAnthropicResponse {
  content : list (gmap string json);
  model : string;
  role : string;
  stop_reason : string;
  type : string;
  usage : Usage
}.

Inductive reply : Type :=
  | Written                                   (* the callee answered already *)
  | ErrorJSON (status : Z) (errorType : string)
  | MessageJSON (status : Z) (resp : AnthropicResponse).

Definition textBlock (textAgg : string) : gmap string json :=
  <["type" := JStr "text"]> (<["text" := JStr textAgg]> ∅).

Definition toolUseBlock (tool : ToolExecution) : gmap string json :=
  let toolUseBlock : gmap string json :=
    <["type" := JStr "tool_use"]>
      (<["id" := JStr (ID tool)]>
         (<["name" := JStr (Name tool)]>
            (<["input" := match Arguments tool with
                          | Some args => JObj args
                          | None => JNull
                          end]> ∅))) in
  match Arguments tool with
  | None => <["input" := JObj ∅]> toolUseBlock
  | Some _ => toolUseBlock
  end.

(** [v, _ := m[key].(string)] *)
Definition stringAt (m : gmap string json) (key : string) : string :=
  match m !! key with
  | Some (JStr v) => v
  | _ => ""
  end.

(** [v, _ := m[key].(map[string]any)] *)
Definition mapAt (m : gmap string json) (key : string) : gomap :=
  match m !! key with
  | Some (JObj v) => Some v
  | _ => None
  end.

Section NonStream.

(** [utils.TokenEstimator] and [filterSupportedTools] are not among the
    sources; the handler is read for any such functions. *)
Variable EstimateTokens : Types.CountTokensRequest → Z.
Variable EstimateTextTokens : string → Z.
Variable EstimateToolUseTokens : string → gomap → Z.
Variable filterSupportedTools : list Types.AnthropicTool → list Types.AnthropicTool.
Variable NewStopReasonManager : Types.AnthropicRequest → StopReasonManager.

(** One turn of the loop over [contexts] that adds up [outputTokens]. *)
Definition addBlockTokens (outputTokens : Z) (contentBlock : gmap string json) : Z :=
  let blockType := stringAt contentBlock "type" in
  if bool_decide (blockType = "text") then
    match contentBlock !! "text" with
    | Some (JStr text) => int_add outputTokens (EstimateTextTokens text)
    | _ => outputTokens
    end
  else if bool_decide (blockType = "tool_use") then
    let toolName := stringAt contentBlock "name" in
    let toolInput := mapAt contentBlock "input" in
    int_add outputTokens (EstimateToolUseTokens toolName toolInput)
  else outputTokens.

Definition handleNonStreamRequest (anthropicReq : Types.AnthropicRequest)
    (up : upstream) : reply :=
  let countReq :=
    {| Types.Count_Model := Types.Model anthropicReq;
       Types.Count_System := Types.System anthropicReq;
       Types.Count_Messages := Types.Messages anthropicReq;
       Types.Count_Tools := filterSupportedTools (Types.Tools anthropicReq) |} in
  let inputTokens := EstimateTokens countReq in
  match up with
  | RequestFailed => Written
  | ReadFailed => Written
  | ParseFailed cause =>
      let statusCode :=
        if Strings.Contains cause "解析超时" then 408%Z
        else if Strings.Contains cause "格式错误" then 400%Z
        else 500%Z in
      ErrorJSON statusCode "parsing_error"
  | Parsed textAgg activeTools completedTools =>
      let allTools := activeTools ++ completedTools in
      let sawToolUse := (0 <? length allTools)%nat in
      let contexts : list (gmap string json) :=
        if bool_decide (textAgg ≠ "") then [textBlock textAgg] else [] in
      let contexts := contexts ++ (toolUseBlock <$> allTools) in
      let stopReasonManager := NewStopReasonManager anthropicReq in
      let outputTokens := foldl addBlockTokens 0%Z contexts in
      let outputTokens :=
        if (outputTokens <? 1)%Z && (0 <? length contexts)%nat then 1%Z
        else outputTokens in
      let stopReasonManager :=
        UpdateToolCallStatus stopReasonManager sawToolUse sawToolUse in
      let stopReason := DetermineStopReason stopReasonManager in
      MessageJSON 200
        {| content := contexts;
           model := Types.Model anthropicReq;
           role := "assistant";
           stop_reason := stopReason;
           type := "message";
           usage := {| input_tokens := inputTokens;
                       output_tokens := outputTokens |} |}
  end.

End NonStream.

(** *** POST /v1/messages (src/unnamed/part_001) *)

(** One turn of the loop over [toolsArray]: [None] when nothing is appended
    to [normalizedTools]. *)
Definition normalizeTool (tool : json) : option (gmap string json) :=
  match tool with
  | JObj toolMap =>
      match toolMap !! "name", toolMap !! "description", toolMap !! "input_schema" with
      | Some name, Some description, Some inputSchema =>
          Some (<["name" := name]>
                  (<["description" := description]>
                     (<["input_schema" := inputSchema]> ∅)))
      | _, _, _ => Some toolMap
      end
  | _ => None
  end.

Fixpoint normalizeToolsArray (toolsArray : list json)
    (normalizedTools : list (gmap string json)) : list (gmap string json) :=
  match toolsArray with
  | [] => normalizedTools
  | tool :: rest =>
      match normalizeTool tool with
      | Some normalizedTool =>
          normalizeToolsArray rest (normalizedTools ++ [normalizedTool])
      | None => normalizeToolsArray rest normalizedTools
      end
  end.

Definition normalizeRawRequest (rawReq : gmap string json) : gmap string json :=
  match rawReq !! "tools" with
  | Some (JArr toolsArray) =>
      <["tools" := JArr (JObj <$> normalizeToolsArray toolsArray [])]> rawReq
  | _ => rawReq
  end.

(** How the handler ends: the token or the body could not be had (the
    callee answered), an error answer, or the request handed to the stream or
    non-stream handler, which are the ones that call the upstream. *)
Inductive outcome : Type :=
  | Answered
  | RespondError (status : Z) (message : string)
  | HandleStream (anthropicReq : Types.AnthropicRequest) (token : Types.TokenWithUsage)
  | HandleNonStream (anthropicReq : Types.AnthropicRequest) (token : Types.TokenWithUsage).

Definition StatusBadRequest : Z := 400.

Section Messages.

(** [utils.SafeUnmarshal], [utils.SafeMarshal] and [utils.GetMessageContent]
    are not among the sources; [None] stands for a non-nil error. *)
Variable SafeUnmarshal_map : string → option (gmap string json).
Variable SafeMarshal : gmap string json → option string.
Variable SafeUnmarshal_AnthropicRequest : string → option Types.AnthropicRequest.
Variable GetMessageContent : json → option string.

(** The handler from "验证请求的有效性" on. *)
Definition validateAndDispatch (anthropicReq : Types.AnthropicRequest)
    (tokenWithUsage : Types.TokenWithUsage) : outcome :=
  match last (Types.Messages anthropicReq) with
  | None => RespondError StatusBadRequest "messages 数组不能为空"
  | Some lastMsg =>
      match GetMessageContent (Types.Content lastMsg) with
      | None => RespondError StatusBadRequest "获取消息内容失败"
      | Some content =>
          let trimmedContent := Strings.TrimSpace content in
          if bool_decide (trimmedContent = "")
             || bool_decide (trimmedContent = "answer for user question")
          then RespondError StatusBadRequest "消息内容不能为空"
          else if Types.Stream anthropicReq
               then HandleStream anthropicReq tokenWithUsage
               else HandleNonStream anthropicReq tokenWithUsage
      end
  end.

Definition messagesHandler (acquired : option (Types.TokenWithUsage * string))
  : outcome :=
  match acquired with
  | None => Answered
  | Some (tokenWithUsage, body) =>
      match SafeUnmarshal_map body with
      | None => RespondError StatusBadRequest "解析请求体失败"
      | Some rawReq =>
          let rawReq := normalizeRawRequest rawReq in
          match SafeMarshal rawReq with
          | None => RespondError StatusBadRequest "处理请求格式失败"
          | Some normalizedBody =>
              match SafeUnmarshal_AnthropicRequest normalizedBody with
              | None => RespondError StatusBadRequest "解析请求体失败"
              | Some anthropicReq => validateAndDispatch anthropicReq tokenWithUsage
              end
          end
      end
  end.

End Messages.

End Server.

(** ** The pages' scripts (src/static/js) *)

Module Static.

(** A token of the list as [TokenDashboard] reads it (dashboard.js):
    [status] with [undefined] as [None], whether [expires_at] lies in the
    past, and [remaining_usage || 0]. *)
Record dashboardToken : Type := mkDashboardToken {
  status : option string;
  status_text : option string;
  expiresInPast : bool;
  remaining : Q
}.

(** The legacy branch of the two switches. *)
Definition legacyStatus (token : dashboardToken) (expired exhausted low fine : string)
  : string :=
  if expiresInPast token then expired
  else if Qeq_bool (remaining token) 0 then exhausted
  else if Qle_bool (remaining token) 5 then low
  else fine.

(** [TokenDashboard.getStatusClass] *)
Definition getStatusClass (token : dashboardToken) : string :=
  let status := default "" (status token) in
  if bool_decide (status = "active") then "status-active"
  else if bool_decide (status = "exhausted") then "status-exhausted"
  else if bool_decide (status = "banned") then "status-banned"
  else if bool_decide (status = "expired") then "status-expired"
  else if bool_decide (status = "disabled") then "status-disabled"
  else if bool_decide (status = "error") then "status-error"
  else legacyStatus token "status-expired" "status-exhausted" "status-low"
         "status-active".

(** [TokenDashboard.getStatusText] *)
Definition getStatusText (token : dashboardToken) : string :=
  match status_text token with
  | Some text =>
      if bool_decide (text ≠ "") then text
      else
        let status := default "" (status token) in
        if bool_decide (status = "active") then "可用"
        else if bool_decide (status = "exhausted") then "已耗尽"
        else if bool_decide (status = "banned") then "已封禁"
        else if bool_decide (status = "expired") then "已过期"
        else if bool_decide (status = "disabled") then "已禁用"
        else if bool_decide (status = "error") then "错误"
        else legacyStatus token "已过期" "已耗尽" "即将耗尽" "正常"
  | None =>
      let status := default "" (status token) in
      if bool_decide (status = "active") then "可用"
      else if bool_decide (status = "exhausted") then "已耗尽"
      else if bool_decide (status = "banned") then "已封禁"
      else if bool_decide (status = "expired") then "已过期"
      else if bool_decide (status = "disabled") then "已禁用"
      else if bool_decide (status = "error") then "错误"
      else legacyStatus token "已过期" "已耗尽" "即将耗尽" "正常"
  end.

End Static.
(* ===================================================================== *)
(** * Part II: the vocabulary of the specification *)
(* ===================================================================== *)

Section Vocabulary.
Import Types Auth.

(** ** Credential filtering *)

(** What the specification calls a record usable at runtime. *)
Definition runtime_usable (c : AuthConfig) : Prop :=
  RefreshToken c ≠ ""
  ∧ ¬ (AuthType c = AuthMethodIdC ∧ (ClientID c = "" ∨ ClientSecret c = ""))
  ∧ Disabled c = false.

Definition default_social (c : AuthConfig) : AuthConfig :=
  if bool_decide (AuthType c = "") then withAuthType c AuthMethodSocial else c.

(** ** Available quota *)

#[local] Open Scope Q_scope.

(** The specification's formula: limit minus used, summed over the base
    quota, the free trial when ACTIVE, and every bonus; never negative. *)
Definition bonus_remaining (bonuses : list BonusInfo) : Q :=
  foldr (λ b acc, (Bonus_UsageLimit b - Bonus_CurrentUsage b) + acc) 0 bonuses.

Definition free_trial_remaining (b : UsageBreakdown) : Q :=
  match FreeTrial b with
  | Some ft =>
      if bool_decide (FreeTrialStatus ft = "ACTIVE")
      then FreeTrial_UsageLimitWithPrecision ft - FreeTrial_CurrentUsageWithPrecision ft
      else 0
  | None => 0
  end.

Definition available_quota (b : UsageBreakdown) : Q :=
  Qmax 0 ((UsageLimitWithPrecision b - CurrentUsageWithPrecision b)
          + free_trial_remaining b
          + bonus_remaining (Bonuses b)).

(** The breakdown both loops stop at: the first one of type CREDIT. *)
Definition credit_breakdown (breakdowns : list UsageBreakdown) : option UsageBreakdown :=
  head (filter (λ b, ResourceType b = "CREDIT") breakdowns).

(** A usage-limits body whose base CREDIT quota is used up (10 of 10) while
    one bonus of 5 credits is untouched. *)
Definition spent_base_with_bonus : Types.UsageLimits :=
  {| UsageBreakdownList :=
       [ {| ResourceType := "CREDIT";
            UsageLimitWithPrecision := 10;
            CurrentUsageWithPrecision := 10;
            FreeTrial := None;
            Bonuses := [ {| BonusCode := "WELCOME";
                            Bonus_UsageLimit := 5;
                            Bonus_CurrentUsage := 0 |} ] |} ];
     UserInfo_Email := "dev@example.com" |}.

(** ** Probe classification *)

(** The body is JSON (an object) carrying a string field [reason]. *)
Definition carries_reason (SafeUnmarshal_map : string → option (gmap string json))
    (body reason : string) : Prop :=
  ∃ errorResp, SafeUnmarshal_map body = Some errorResp
               ∧ errorResp !! "reason" = Some (JStr reason).

(** The probe produced no response at all. *)
Definition transport_failure (x : exchange) : Prop :=
  match x with Response _ _ => False | _ => True end.

(** The quota a well-formed body yields: the sum over its first CREDIT
    breakdown, nothing when it has none. *)
Definition computed_available (limits : Types.UsageLimits) : Q :=
  match credit_breakdown (UsageBreakdownList limits) with
  | Some b => available_quota b
  | None => 0
  end.

(** ** Email masking *)

(** A label replaced by as many stars as it has bytes. *)
Definition star_label (label : string) : string :=
  Strings.Repeat "*" (String.length label).

(** The last label of a domain, its top-level domain. *)
Definition tld_label (domain : string) : option string :=
  last (Strings.Split domain ".").

(** ** Credential store *)

(** The file of the store holds exactly the in-memory list. *)
Definition on_disk (fs : gmap string Server.file) (cs : Server.ConfigStore) : Prop :=
  fs !! Server.filePath cs = Some (Server.Stored (Server.configs cs)).

(** A store of two records, in step with its file. *)
Definition two_records : Server.ConfigStore :=
  {| Server.configs :=
       [ {| AuthType := "Social"; RefreshToken := "r1"; ClientID := "";
            ClientSecret := ""; Disabled := false |};
         {| AuthType := "IdC"; RefreshToken := "r2"; ClientID := "id";
            ClientSecret := "secret"; Disabled := false |} ];
     Server.filePath := "./auth_config.json" |}.

Definition two_records_fs : gmap string Server.file :=
  {[ "./auth_config.json" := Server.Stored (Server.configs two_records) ]}.

Definition third_record : AuthConfig :=
  {| AuthType := "Social"; RefreshToken := "r3"; ClientID := "";
     ClientSecret := ""; Disabled := false |}.

(** ** Content blocks and usage of the non-streaming response *)

(** A content block as the client receives it. *)
Inductive delivered : Type :=
  | DeliveredText (text : string)
  | DeliveredToolUse (id name : string) (input : gmap string json).

Definition render (block : delivered) : gmap string json :=
  match block with
  | DeliveredText text => {[ "type" := JStr "text"; "text" := JStr text ]}
  | DeliveredToolUse id name input =>
      {[ "type" := JStr "tool_use"; "id" := JStr id; "name" := JStr name;
         "input" := JObj input ]}
  end.

(** The blocks a parse result is delivered as: the text, unless empty, then
    one tool-use block per tool, a missing argument object being [{}]. *)
Definition delivered_blocks (textAgg : string) (tools : list Server.ToolExecution)
  : list delivered :=
  (if bool_decide (textAgg = "") then [] else [DeliveredText textAgg])
  ++ ((λ tool, DeliveredToolUse (Server.ID tool) (Server.Name tool)
                 (default ∅ (Server.Arguments tool))) <$> tools).

Definition is_tool_use (block : gmap string json) : Prop :=
  block !! "type" = Some (JStr "tool_use").

(** ** Tool normalization *)

(** The canonical Anthropic tool object. *)
Definition canonical_tool (name description inputSchema : json) : gmap string json :=
  {[ "name" := name; "description" := description; "input_schema" := inputSchema ]}.

Definition is_canonical (tool : json) : Prop :=
  ∃ name description inputSchema,
    tool = JObj (canonical_tool name description inputSchema).

(** ** Request validation *)

Definition calls_upstream (o : Server.outcome) : Prop :=
  match o with
  | Server.HandleStream _ _ | Server.HandleNonStream _ _ => True
  | _ => False
  end.

(** A request without messages, one whose only message is blank, and a
    token to serve them with. *)
Definition no_messages : Types.AnthropicRequest :=
  {| Types.Model := "claude-3-5-sonnet"; Types.MaxTokens := 1024;
     Types.Messages := []; Types.System := []; Types.Tools := [];
     Types.Stream := false |}.

Definition blank_message : Types.AnthropicRequest :=
  {| Types.Model := "claude-3-5-sonnet"; Types.MaxTokens := 1024;
     Types.Messages := [ {| Types.Role := "user"; Types.Content := JStr "  " |} ];
     Types.System := []; Types.Tools := []; Types.Stream := true |}.

(** A [GetMessageContent] for the examples: the text of a string content. *)
Definition string_content (content : json) : option string :=
  match content with
  | JStr text => Some text
  | _ => None
  end.

Definition some_token : Types.TokenWithUsage :=
  {| AccessToken := "tok"; TokenUsageLimits := None; IsUsageExceeded := false |}.

End Vocabulary.

Section ParsedRequests.

Variable SafeUnmarshal_map : string → option (gmap string json).
Variable SafeMarshal : gmap string json → option string.
Variable SafeUnmarshal_AnthropicRequest : string → option Types.AnthropicRequest.

(** The body goes through the tool normalization and parses as [req]. *)
Definition parses_as (body : string) (req : Types.AnthropicRequest) : Prop :=
  ∃ rawReq normalizedBody,
    SafeUnmarshal_map body = Some rawReq
    ∧ SafeMarshal (Server.normalizeRawRequest rawReq) = Some normalizedBody
    ∧ SafeUnmarshal_AnthropicRequest normalizedBody = Some req.

End ParsedRequests.

Section EstimatedBlocks.

Variable EstimateTextTokens : string → Z.
Variable EstimateToolUseTokens : string → gomap → Z.

(** The estimator applied to one delivered block. *)
Definition estimate (block : delivered) : Z :=
  match block with
  | DeliveredText text => EstimateTextTokens text
  | DeliveredToolUse _ name input => EstimateToolUseTokens name (Some input)
  end.

(** The estimates of the delivered blocks, added up as Go adds [int]s. *)
Definition delivered_tokens (blocks : list delivered) : Z :=
  foldl (λ total block, Server.int_add total (estimate block)) 0%Z blocks.

End EstimatedBlocks.

#[global] Instance runtime_usable_dec c : Decision (runtime_usable c).
Proof. unfold runtime_usable. apply _. Defined.


(** ** Stored and loaded credential records *)

Section RecordVocabulary.
Import Auth.

(** A record as the add and update handlers accept it. *)
Definition well_formed_record (c : AuthConfig) : Prop :=
  RefreshToken c ≠ ""
  ∧ AuthType c ≠ ""
  ∧ (AuthType c = AuthMethodIdC → ClientID c ≠ "" ∧ ClientSecret c ≠ "").

(** A record as the runtime uses it: well formed and not disabled. *)
Definition ready_record (c : AuthConfig) : Prop :=
  well_formed_record c ∧ Disabled c = false.

(** The path [loadConfigs] looks for the configuration file at. *)
Definition config_file_path (os : OS) : string :=
  if bool_decide (Getenv os "AUTH_CONFIG_FILE" = "") then "./auth_config.json"
  else Getenv os "AUTH_CONFIG_FILE".

(** An environment with one inline credential and no configuration file. *)
Definition inline_only : OS :=
  {| environ := {[ "KIRO_AUTH_TOKEN" := "[{}]" ]}; files := ∅ |}.

Definition one_social_record : AuthConfig :=
  {| AuthType := ""; RefreshToken := "r1"; ClientID := ""; ClientSecret := "";
     Disabled := false |}.

(** A configuration file next to a KIRO_AUTH_TOKEN that does not parse. *)
Definition file_and_environment : OS :=
  {| environ := {[ "KIRO_AUTH_TOKEN" := "not json" ]};
     files := {[ "./auth_config.json" := RegularFile (Some "[{}]") ]} |}.

(** A parser for the examples: it reads ["[{}]"] as one record without
    auth type and nothing else. *)
Definition parse_one_record (jsonData : string) : option (list AuthConfig) :=
  if bool_decide (jsonData = "[{}]") then Some [one_social_record] else None.

(** The global store, when set, holds only well-formed records. *)
Definition store_well_formed (configStore : option Server.ConfigStore) : Prop :=
  match configStore with
  | Some cs => Forall well_formed_record (Server.configs cs)
  | None => True
  end.

(** What an answer of a store handler says about the state it leaves: a 400
    means nothing was touched, a 200 that the file holds the list in memory,
    and without a store the answer is 500. *)
Definition answer_tells_state (configStore : option Server.ConfigStore)
    (fs : gmap string Server.file)
    (after : option Server.ConfigStore * gmap string Server.file * Z) : Prop :=
  let '(configStore', fs', status) := after in
  (status = 200 ∨ status = 400 ∨ status = 404 ∨ status = 500)%Z
  ∧ (status = 400%Z → configStore' = configStore ∧ fs' = fs)
  ∧ (status = 200%Z → ∃ cs', configStore' = Some cs' ∧ on_disk fs' cs')
  ∧ (configStore = None → status = 500%Z ∧ configStore' = None ∧ fs' = fs).

End RecordVocabulary.

Section QuotaVocabulary.
Import Types Auth.
#[local] Open Scope Q_scope.

(** The totals the usage loop leaves behind belong together. *)
Definition consistent_totals (r : UsageCheckResult) : Prop :=
  Available r == Qmax 0 (TotalLimit r - TotalUsed r).


(** A usage-limits body with 3 of 10 base credits left and no bonus. *)
Definition base_only_limits : Types.UsageLimits :=
  {| UsageBreakdownList :=
       [ {| ResourceType := "CREDIT";
            UsageLimitWithPrecision := 10;
            CurrentUsageWithPrecision := 7;
            FreeTrial := None;
            Bonuses := [] |} ];
     UserInfo_Email := "dev@example.com" |}.


End QuotaVocabulary.

(** ** Import results and token lists *)

Section ListingVocabulary.
Import Auth.

(** How many of the results report a success. *)
Definition count_success (results : list Server.ImportResult) : nat :=
  length (filter (λ r, Server.Result_Status r = "success") results).

(** How many of the entries are active. *)
Definition count_active (tokens : list Server.TokenData) : nat :=
  length (filter (λ e, Server.Token_status e = Types.AccountStatusActive) tokens).

(** Every result, or entry, carries its position as its index. *)
Definition results_indexed_from (i : nat) (results : list Server.ImportResult) : Prop :=
  ∀ k r, results !! k = Some r → Server.Result_Index r = Z.of_nat (i + k).

Definition entries_indexed_from (i : nat) (tokens : list Server.TokenData) : Prop :=
  ∀ k e, tokens !! k = Some e → Server.Token_index e = Z.of_nat (i + k).

(** The statuses an entry of the token list can have. *)
Definition listed_status (status : string) : Prop :=
  status ∈ [Types.AccountStatusActive; Types.AccountStatusExhausted;
            Types.AccountStatusBanned; Types.AccountStatusExpired;
            Types.AccountStatusDisabled; Types.AccountStatusError].

(** Two accounts to import: one without refresh token, one social. *)
Definition two_imports : list Server.ImportAccountInput :=
  [ {| Server.Import_RefreshToken := ""; Server.Import_ClientID := "";
       Server.Import_ClientSecret := ""; Server.Import_Region := "";
       Server.Import_Provider := "" |};
    {| Server.Import_RefreshToken := "r9"; Server.Import_ClientID := "";
       Server.Import_ClientSecret := ""; Server.Import_Region := "us-east-1";
       Server.Import_Provider := "Google" |} ].

End ListingVocabulary.

Section ImportVocabulary.

Variable saveMishap : nat → option Server.fault.

(** What one turn does: it reports its index and either leaves store and
    file alone without a success, or appends one ready record. *)
Definition one_import (i : nat) (cs : Server.ConfigStore) (fs : gmap string Server.file)
    (after : Server.ConfigStore * gmap string Server.file * Server.ImportResult * bool) : Prop :=
  let '(cs', fs', r, ok) := after in
  Server.Result_Index r = Z.of_nat i
  ∧ (ok = true ↔ Server.Result_Status r = "success")
  ∧ ((cs' = cs ∧ fs' = fs ∧ ok = false)
     ∨ (∃ c, ready_record c
             ∧ cs' = Server.withConfigs cs (Server.configs cs ++ [c])
             ∧ (saveMishap i = None → ok = true ∧ on_disk fs' cs'))).

End ImportVocabulary.

Section DispatchVocabulary.

(** A request with one message, and the body the example parsers read it
    from. *)
Definition hello_request : Types.AnthropicRequest :=
  {| Types.Model := "claude-3-5-sonnet"; Types.MaxTokens := 1024;
     Types.Messages := [ {| Types.Role := "user"; Types.Content := JStr " hi " |} ];
     Types.System := []; Types.Tools := []; Types.Stream := true |}.

Definition is_text_block (block : gmap string json) : Prop :=
  block !! "type" = Some (JStr "text").

End DispatchVocabulary.

Section DashboardVocabulary.

(** An entry of the token list as the dashboard receives it; [expired] is
    the outcome of the page's own comparison of [expires_at] with its
    clock. *)
Definition received (e : Server.TokenData) (expired : bool) : Static.dashboardToken :=
  {| Static.status := Some (Server.Token_status e);
     Static.status_text := Some (Server.Token_status_text e);
     Static.expiresInPast := expired;
     Static.remaining := Server.Token_remaining_usage e |}.

(** The same entry with its [status_text] field missing. *)
Definition received_without_text (e : Server.TokenData) (expired : bool)
  : Static.dashboardToken :=
  {| Static.status := Some (Server.Token_status e);
     Static.status_text := None;
     Static.expiresInPast := expired;
     Static.remaining := Server.Token_remaining_usage e |}.

(** The page shows for [e] the class of its status and the server's text,
    with or without the server's text in the entry. *)
Definition shown_as_listed (e : Server.TokenData) : Prop :=
  ∀ expired,
    Static.getStatusClass (received e expired) = "status-" +:+ Server.Token_status e
    ∧ Static.getStatusText (received e expired) = Server.Token_status_text e
    ∧ Static.getStatusText (received_without_text e expired)
      = Server.Token_status_text e.

(** The request headers of the example: a bearer token, a short key. *)
Definition example_headers (key : string) : string :=
  if bool_decide (key = "Authorization") then "Bearer sk-0123456789abcdefghij"
  else if bool_decide (key = "X-API-Key") then "k-12345"
  else if bool_decide (key = "Cookie") then "session=1"
  else "".

End DashboardVocabulary.
(* ===================================================================== *)
(** * Part III: proofs *)
(* ===================================================================== *)

(** ** Credential filtering *)

Section ProcessConfigs.
Import Auth.

Lemma default_social_fields c :
  RefreshToken (default_social c) = RefreshToken c
  ∧ ClientID (default_social c) = ClientID c
  ∧ ClientSecret (default_social c) = ClientSecret c
  ∧ Disabled (default_social c) = Disabled c
  ∧ (AuthType (default_social c) = AuthMethodIdC ↔ AuthType c = AuthMethodIdC).
Proof.
  unfold default_social. case_bool_decide as Ha; simpl; [|done].
  split_and!; try done. rewrite Ha. split; discriminate.
Qed.

Lemma processConfig_spec c :
  processConfig c = if decide (runtime_usable c) then Some (default_social c) else None.
Proof.
  unfold processConfig. fold (default_social c).
  destruct (default_social_fields c) as (_ & -> & -> & -> & Hidc).
  unfold runtime_usable.
  destruct (decide _) as [(Hr & Hn & Hd)|Hn].
  - rewrite bool_decide_eq_false_2, Hd by done.
    case_bool_decide as Hi; simpl; [|done].
    apply Hidc in Hi.
    rewrite !bool_decide_eq_false_2; [done|intros ?; apply Hn; auto..].
  - case_bool_decide as Hr; [done|].
    case_bool_decide as Hi; simpl.
    + apply Hidc in Hi.
      case_bool_decide as H1; simpl; [done|].
      case_bool_decide as H2; simpl; [done|].
      destruct (Disabled c) eqn:Hd; [done|].
      exfalso. apply Hn. split_and!; [done| |done]. intros [_ [?|?]]; done.
    + destruct (Disabled c) eqn:Hd; [done|].
      exfalso. apply Hn. split_and!; [done| |done].
      intros [? _]. apply Hi, Hidc. done.
Qed.

Lemma processConfigs_from_spec acc cs :
  processConfigs_from acc cs = acc ++ (default_social <$> filter runtime_usable cs).
Proof.
  revert acc. induction cs as [|c cs IH]; intros acc; simpl.
  - by rewrite app_nil_r.
  - rewrite processConfig_spec. destruct (decide (runtime_usable c)) as [Hu|Hu].
    + rewrite IH, filter_cons_True by done. by rewrite <- app_assoc.
    + by rewrite IH, filter_cons_False by done.
Qed.

(** C7. [processConfigs] removes every record with an empty refresh token,
    every IdC record lacking a client id or client secret and every disabled
    record; the records that remain are kept in their original order, an
    empty auth type being replaced by Social. *)
Theorem processConfigs_filters (configs : list AuthConfig) :
  processConfigs configs = default_social <$> filter runtime_usable configs.
Proof. unfold processConfigs. by rewrite processConfigs_from_spec. Qed.

End ProcessConfigs.

(** ** Available quota *)

Section AvailableQuota.
Import Types Auth.
#[local] Open Scope Q_scope.

Lemma clamp_is_Qmax (a : Q) : (if Qlt_le_dec a 0 then 0 else a) == Qmax 0 a.
Proof.
  destruct (Qlt_le_dec a 0) as [H|H].
  - symmetry. apply Q.max_l. lra.
  - symmetry. apply Q.max_r. lra.
Qed.

Lemma addBonuses_totals bonuses l u :
  fst (addBonuses bonuses (l, u)) - snd (addBonuses bonuses (l, u))
  == (l - u) + bonus_remaining bonuses.
Proof.
  revert l u. induction bonuses as [|b bs IH]; intros l u; simpl.
  - lra.
  - rewrite IH. lra.
Qed.

Lemma free_trial_totals b l u :
  let totals :=
    match activeFreeTrial b with
    | Some ft => (l + FreeTrial_UsageLimitWithPrecision ft,
                  u + FreeTrial_CurrentUsageWithPrecision ft)
    | None => (l, u)
    end in
  fst totals - snd totals == (l - u) + free_trial_remaining b.
Proof.
  unfold activeFreeTrial, free_trial_remaining.
  destruct (FreeTrial b) as [ft|]; simpl; [|lra].
  case_bool_decide; simpl; lra.
Qed.

Lemma tallyUsage_no_credit breakdowns result :
  credit_breakdown breakdowns = None → tallyUsage breakdowns result = result.
Proof.
  unfold credit_breakdown.
  induction breakdowns as [|b bs IH]; simpl; [done|].
  case_bool_decide as Hc.
  - by rewrite filter_cons_True.
  - rewrite filter_cons_False by done. exact IH.
Qed.

Lemma tallyUsage_credit breakdowns result b :
  credit_breakdown breakdowns = Some b →
  Available (tallyUsage breakdowns result) == available_quota b.
Proof.
  unfold credit_breakdown.
  induction breakdowns as [|b' bs IH]; simpl; [done|].
  case_bool_decide as Hc.
  - rewrite filter_cons_True by done. simpl. intros [= <-].
    rewrite clamp_is_Qmax. unfold available_quota.
    apply Q.max_compat; [reflexivity|].
    pose proof (free_trial_totals b' (UsageLimitWithPrecision b')
                  (CurrentUsageWithPrecision b')) as Hft.
    simpl in Hft.
    destruct (activeFreeTrial b') as [ft|]; simpl in *;
      rewrite addBonuses_totals; lra.
  - rewrite filter_cons_False by done. exact IH.
Qed.


(** On every 200 response with a CREDIT breakdown the prober's [Available]
    is the specification's sum. *)
Lemma CheckUsageLimitsWithStatus_available um uu body limits b :
  uu body = Some limits →
  credit_breakdown (UsageBreakdownList limits) = Some b →
  Available (CheckUsageLimitsWithStatus um uu (Response StatusOK body))
  == available_quota b.
Proof.
  intros Hu Hb. unfold CheckUsageLimitsWithStatus.
  rewrite bool_decide_eq_false_2 by (intros H; by apply H).
  rewrite Hu. destruct (Qlt_le_dec _ _); simpl; by apply tallyUsage_credit.
Qed.

(** C1 (the code departs from the claim). On a CREDIT breakdown whose base
    quota is spent and which carries an unused bonus of 5, the specification's
    sum is 5 and [CheckUsageLimitsWithStatus] reports 5 available, but
    [GetAvailableCount] returns 0: it never adds the bonuses. *)
Theorem GetAvailableCount_drops_bonuses :
  let limits := spent_base_with_bonus in
  let probe :=
    CheckUsageLimitsWithStatus (λ _, None) (λ _, Some limits) (Response 200 "{}") in
  let token :=
    {| AccessToken := "tok"; TokenUsageLimits := Some limits;
       IsUsageExceeded := false |} in
  (∃ b, credit_breakdown (UsageBreakdownList limits) = Some b
        ∧ available_quota b == 5)
  ∧ Available probe == 5
  ∧ GetAvailableCount token == 0
  ∧ ¬ GetAvailableCount token == Available probe.
Proof.
  simpl. split_and!.
  - eexists. split; [reflexivity|]. vm_compute. reflexivity.
  - vm_compute. reflexivity.
  - vm_compute. reflexivity.
  - vm_compute. discriminate.
Qed.

End AvailableQuota.

(** ** Probe classification *)

Section Classification.
Import Types Auth.
#[local] Open Scope Q_scope.

Variable SafeUnmarshal_map : string → option (gmap string json).
Variable SafeUnmarshal_UsageLimits : string → option Types.UsageLimits.

#[local] Abbreviation probe := (CheckUsageLimitsWithStatus SafeUnmarshal_map SafeUnmarshal_UsageLimits).

Lemma probe_ok_available body limits :
  SafeUnmarshal_UsageLimits body = Some limits →
  Available (probe (Response StatusOK body)) == computed_available limits.
Proof.
  intros Hu. unfold computed_available.
  destruct (credit_breakdown _) as [b|] eqn:Hb.
  - by eapply CheckUsageLimitsWithStatus_available.
  - unfold CheckUsageLimitsWithStatus.
    rewrite bool_decide_eq_false_2 by (intros H; by apply H).
    rewrite Hu, tallyUsage_no_credit by done. simpl. reflexivity.
Qed.

Lemma probe_ok_status body limits :
  SafeUnmarshal_UsageLimits body = Some limits →
  let r := probe (Response StatusOK body) in
  (0 < Available r ∧ Status r = AccountStatusActive)
  ∨ (Available r <= 0 ∧ Status r = AccountStatusExhausted).
Proof.
  intros Hu. unfold CheckUsageLimitsWithStatus.
  rewrite bool_decide_eq_false_2 by (intros H; by apply H).
  rewrite Hu. simpl. destruct (Qlt_le_dec _ _) as [H|H]; simpl; auto.
Qed.

(** C4. [CheckUsageLimitsWithStatus] puts every probe outcome in exactly one
    of four classes: banned, with the ban reason taken from the body, when
    the status is not 200 and the body is JSON with a string [reason]; error
    for every other non-200 response, every transport failure and every 200
    body that does not parse; and on a 200 with a well-formed body, exhausted
    exactly when the computed available quota is at most 0 and active exactly
    when it is positive. *)
Theorem CheckUsageLimitsWithStatus_classifies (x : exchange) :
  let r := probe x in
  (Status r ∈ [AccountStatusBanned; AccountStatusError;
               AccountStatusExhausted; AccountStatusActive]
   ∧ NoDup [AccountStatusBanned; AccountStatusError;
            AccountStatusExhausted; AccountStatusActive])
  ∧ (∀ code body reason,
        x = Response code body → code ≠ StatusOK →
        carries_reason SafeUnmarshal_map body reason →
        Status r = AccountStatusBanned ∧ BanReason r = reason)
  ∧ (∀ code body,
        x = Response code body → code ≠ StatusOK →
        (∀ reason, ¬ carries_reason SafeUnmarshal_map body reason) →
        Status r = AccountStatusError)
  ∧ (transport_failure x → Status r = AccountStatusError)
  ∧ (∀ body,
        x = Response StatusOK body → SafeUnmarshal_UsageLimits body = None →
        Status r = AccountStatusError)
  ∧ (∀ body limits,
        x = Response StatusOK body →
        SafeUnmarshal_UsageLimits body = Some limits →
        Available r == computed_available limits
        ∧ (Status r = AccountStatusExhausted ↔ Available r <= 0)
        ∧ (Status r = AccountStatusActive ↔ 0 < Available r)).
Proof.
  intros r. split_and!.
  - subst r. destruct x as [c|c|c|code body]; simpl; try set_solver.
    case_bool_decide.
    + destruct (SafeUnmarshal_map body) as [m|]; [|set_solver].
      destruct (m !! "reason") as [[]|]; set_solver.
    + destruct (SafeUnmarshal_UsageLimits body); [|set_solver].
      destruct (Qlt_le_dec _ _); set_solver.
  - by apply (bool_decide_unpack _).
  - intros code body reason -> Hc (m & Hm & Hr). subst r. unfold CheckUsageLimitsWithStatus.
    rewrite bool_decide_eq_true_2 by done. by rewrite Hm, Hr.
  - intros code body -> Hc Hn. subst r. unfold CheckUsageLimitsWithStatus.
    rewrite bool_decide_eq_true_2 by done.
    destruct (SafeUnmarshal_map body) as [m|] eqn:Hm; [|done].
    destruct (m !! "reason") as [[| | |reason| |]|] eqn:Hr; try done.
    exfalso. apply (Hn reason). by exists m.
  - subst r. by destruct x.
  - intros body -> Hu. subst r. unfold CheckUsageLimitsWithStatus.
    rewrite bool_decide_eq_false_2 by (intros H; by apply H). by rewrite Hu.
  - intros body limits -> Hu. subst r. split; [by apply probe_ok_available|].
    destruct (probe_ok_status body limits Hu) as [[Ha ->]|[Ha ->]].
    + split; split; try done. intros ?. lra.
    + split; split; try done. intros ?. lra.
Qed.

End Classification.


(** ** Facts about the string functions *)

Section GoStrings.
Import Strings.

Lemma Split_nonempty s sep : Split s sep ≠ [].
Proof.
  destruct s as [|b rest]; simpl; [done|].
  destruct (Ascii.eqb b sep); [done|]. by destruct (Split rest sep).
Qed.

Lemma length_Split s sep : length (Split s sep) = S (Count s sep).
Proof.
  induction s as [|b rest IH]; simpl; [done|].
  destruct (Ascii.eqb b sep); simpl; [by rewrite IH|].
  pose proof (Split_nonempty rest sep).
  destruct (Split rest sep); [done|]. exact IH.
Qed.

Lemma Count_append a b c : Count (a +:+ b) c = Count a c + Count b c.
Proof. induction a as [|x a IH]; simpl; [done|]. rewrite IH. lia. Qed.

Lemma Split_no_sep s sep : Count s sep = 0 → Split s sep = [s].
Proof.
  induction s as [|b rest IH]; simpl; [done|].
  destruct (Ascii.eqb b sep); [done|]. simpl. intros H. by rewrite IH.
Qed.

Lemma Split_append_sep a b sep :
  Count a sep = 0 → Split (a +:+ String sep b) sep = a :: Split b sep.
Proof.
  induction a as [|x a IH]; simpl.
  - by rewrite Ascii.eqb_refl.
  - destruct (Ascii.eqb x sep); [done|]. simpl. intros H. by rewrite IH.
Qed.

(** No piece holds more occurrences of a byte than the whole string. *)
Lemma Count_Split_pieces s sep c :
  Count s c = 0 → Forall (λ p, Count p c = 0) (Split s sep).
Proof.
  induction s as [|b rest IH]; simpl.
  - intros _. by repeat constructor.
  - intros H. assert (Ascii.eqb b c = false ∧ Count rest c = 0) as [Hb Hr].
    { destruct (Ascii.eqb b c); [done|]. by split. }
    specialize (IH Hr).
    destruct (Ascii.eqb b sep); [by constructor|].
    destruct (Split rest sep) as [|p ps]; [repeat constructor; simpl; by rewrite Hb|].
    inversion_clear IH. constructor; [|done]. simpl. by rewrite Hb.
Qed.

Lemma Split_pieces_no_sep s sep : Forall (λ p, Count p sep = 0) (Split s sep).
Proof.
  induction s as [|b rest IH]; simpl; [by repeat constructor|].
  destruct (Ascii.eqb b sep) eqn:Hb; [by constructor|].
  destruct (Split rest sep) as [|p ps]; [repeat constructor; simpl; by rewrite Hb|].
  inversion_clear IH. constructor; [|done]. simpl. by rewrite Hb.
Qed.

Lemma Join_Split s sep : Join (Split s sep) (String sep "") = s.
Proof.
  induction s as [|b rest IH]; simpl; [done|].
  pose proof (Split_nonempty rest sep) as Hne.
  destruct (Ascii.eqb b sep) eqn:Hb.
  - apply Ascii.eqb_eq in Hb as ->.
    destruct (Split rest sep) as [|p ps]; [done|]. simpl in *. by rewrite IH.
  - destruct (Split rest sep) as [|p ps]; [done|].
    destruct ps; simpl in *; by rewrite <- IH.
Qed.

Lemma Split_Join parts sep :
  parts ≠ [] → Forall (λ p, Count p sep = 0) parts →
  Split (Join parts (String sep "")) sep = parts.
Proof.
  induction parts as [|p ps IH]; [done|]. intros _ Hall.
  inversion_clear Hall as [|? ? Hp Hps].
  destruct ps as [|q qs]; [by apply Split_no_sep|].
  change (Join (p :: q :: qs) (String sep ""))
    with (p +:+ String sep (Join (q :: qs) (String sep ""))).
  rewrite Split_append_sep by done. by rewrite IH.
Qed.

Lemma Count_Join parts sep c :
  Ascii.eqb sep c = false → Forall (λ p, Count p c = 0) parts →
  Count (Join parts (String sep "")) c = 0.
Proof.
  intros Hs. induction 1 as [|p ps Hp Hps IH]; [done|].
  destruct ps as [|q qs]; [done|].
  change (Join (p :: q :: qs) (String sep ""))
    with (p +:+ String sep (Join (q :: qs) (String sep ""))).
  rewrite Count_append, Hp. cbn [Count Nat.add]. rewrite Hs. exact IH.
Qed.

Lemma length_Repeat_star n : String.length (Repeat "*" n) = n.
Proof. induction n as [|n IH]; [done|]. simpl. f_equal. exact IH. Qed.

Lemma Count_Repeat_star n c : Ascii.eqb "*" c = false → Count (Repeat "*" n) c = 0.
Proof.
  intros Hc. induction n as [|n IH]; [done|].
  change (Count (Repeat "*" (S n)) c)
    with ((if Ascii.eqb "*" c then 1 else 0) + Count (Repeat "*" n) c).
  by rewrite Hc.
Qed.

Lemma Count_substring s c n m : Count s c = 0 → Count (substring n m s) c = 0.
Proof.
  revert n m. induction s as [|b rest IH]; intros n m; simpl.
  - by destruct n, m.
  - intros H. assert (Ascii.eqb b c = false ∧ Count rest c = 0) as [Hb Hr].
    { destruct (Ascii.eqb b c); [done|]. by split. }
    destruct n; [destruct m; simpl; [done|rewrite Hb]|]; by rewrite ?IH.
Qed.

Lemma length_substring s n m :
  (n + m ≤ String.length s)%nat → String.length (substring n m s) = m.
Proof.
  revert n m. induction s as [|b rest IH]; intros n m; simpl.
  - intros H. by destruct n, m; try lia.
  - intros H. destruct n; [destruct m; simpl; [done|]|]; rewrite ?IH; lia.
Qed.

Lemma length_append a b :
  String.length (a +:+ b) = String.length a + String.length b.
Proof. induction a as [|x a IH]; simpl; [done|]. by rewrite IH. Qed.

End GoStrings.

(** ** Email masking *)

Section MaskEmail.
Import Strings Server.

Example maskEmail_gmail : maskEmail "caidaoli@gmail.com" = "ca****li@*****.com".
Proof. vm_compute. reflexivity. Qed.

Example maskEmail_three_labels :
  maskEmail "caidaolihz888@sun.edu.pl" = "ca*********88@***.edu.pl".
Proof. vm_compute. reflexivity. Qed.

Lemma mask_loop (domainParts : list string) k (maskedParts : list string) :
  (k ≤ length domainParts)%nat → length maskedParts = length domainParts →
  foldl (λ maskedParts i,
           <[i := Repeat "*" (String.length (domainParts !!! i))]> maskedParts)
        maskedParts (seq 0 k)
  = (star_label <$> take k domainParts) ++ drop k maskedParts.
Proof.
  intros Hk Hlen. induction k as [|k IH]; [done|].
  rewrite seq_S, foldl_app, IH by lia. simpl.
  destruct (lookup_lt_is_Some_2 domainParts k) as [p Hp]; [lia|].
  destruct (lookup_lt_is_Some_2 maskedParts k) as [q Hq]; [lia|].
  rewrite (take_S_r _ _ _ Hp), fmap_app, <- app_assoc. simpl.
  rewrite insert_app_r_alt; rewrite length_fmap, length_take; [|lia].
  replace (k - k `min` length domainParts)%nat with 0%nat by lia.
  rewrite (drop_S _ _ _ Hq). simpl.
  by rewrite (list_lookup_total_correct _ _ _ Hp).
Qed.

Lemma maskDomainParts_labels (rest : list string) (sld tld : string) :
  maskDomainParts (rest ++ [sld; tld]) = (star_label <$> rest) ++ [sld; tld].
Proof.
  unfold maskDomainParts. rewrite length_app. simpl.
  replace (length rest + 2 - 2)%nat with (length rest) by lia.
  replace (length rest + 2 - 1)%nat with (S (length rest)) by lia.
  rewrite mask_loop; [|rewrite length_app; simpl; lia
                      |by rewrite length_replicate, length_app].
  rewrite take_app_length, drop_replicate.
  replace (length rest + 2 - length rest)%nat with 2%nat by lia. simpl.
  rewrite !insert_app_r_alt; rewrite ?length_fmap; [|lia..].
  replace (length rest - length rest)%nat with 0%nat by lia.
  replace (S (length rest) - length rest)%nat with 1%nat by lia. simpl.
  do 2 f_equal.
  - apply list_lookup_total_correct. rewrite lookup_app_r by lia.
    by replace (length rest - length rest)%nat with 0%nat by lia.
  - f_equal. apply list_lookup_total_correct. rewrite lookup_app_r by lia.
    by replace (S (length rest) - length rest)%nat with 1%nat by lia.
Qed.

Lemma length_maskUsername username :
  String.length (maskUsername username) = String.length username.
Proof.
  unfold maskUsername. destruct (Nat.leb_spec (String.length username) 4).
  - apply length_Repeat_star.
  - rewrite !length_append, length_Repeat_star, !length_substring by lia. lia.
Qed.

Lemma Count_maskUsername username c :
  Ascii.eqb "*" c = false → Count username c = 0 → Count (maskUsername username) c = 0.
Proof.
  intros Hc Hu. unfold maskUsername. destruct (_ <=? _)%nat.
  - by apply Count_Repeat_star.
  - by rewrite !Count_append, Count_Repeat_star, !Count_substring.
Qed.

Lemma split_last_two (labels : list string) :
  (3 ≤ length labels)%nat →
  ∃ rest sld tld, rest ≠ [] ∧ labels = rest ++ [sld; tld].
Proof.
  intros Hlen.
  destruct (rev labels) as [|tld [|sld [|x rest]]] eqn:Hrev;
    apply (f_equal length) in Hrev as Hl; rewrite length_rev in Hl; simpl in Hl; try lia.
  exists (rev (x :: rest)), sld, tld. split.
  - intros Hnil. apply (f_equal length) in Hnil. rewrite length_rev in Hnil. done.
  - rewrite <- (rev_involutive labels), Hrev. simpl. by rewrite <- !app_assoc.
Qed.

Lemma maskDomain_one_label domain label :
  Split domain "." = [label] → maskDomain domain = star_label label.
Proof.
  intros Hs. unfold maskDomain. rewrite Hs. simpl.
  pose proof (Join_Split domain ".") as Hj. rewrite Hs in Hj. simpl in Hj.
  by rewrite Hj.
Qed.

Lemma maskDomain_two_labels domain label tld :
  Split domain "." = [label; tld] →
  maskDomain domain = star_label label +:+ "." +:+ tld.
Proof. intros Hs. unfold maskDomain. by rewrite Hs. Qed.

Lemma maskDomain_more_labels domain rest sld tld :
  rest ≠ [] → Split domain "." = rest ++ [sld; tld] →
  maskDomain domain = Join ((star_label <$> rest) ++ [sld; tld]) ".".
Proof.
  intros Hne Hs. unfold maskDomain. rewrite Hs, maskDomainParts_labels.
  rewrite length_app. simpl. destruct rest as [|x rest]; [done|]. simpl.
  by replace (length rest + 2)%nat with (S (S (length rest))) by lia.
Qed.

Lemma star_label_clean label c :
  Ascii.eqb "*" c = false → Count (star_label label) c = 0.
Proof. apply Count_Repeat_star. Qed.

Lemma masked_labels_clean (rest : list string) sld tld c :
  Ascii.eqb "*" c = false →
  Forall (λ p, Count p c = 0) (rest ++ [sld; tld]) →
  Forall (λ p, Count p c = 0) ((star_label <$> rest) ++ [sld; tld]).
Proof.
  intros Hc Hall. apply Forall_app in Hall as [_ Hlast].
  apply Forall_app. split; [|done].
  apply Forall_fmap, Forall_true. intros l. by apply star_label_clean.
Qed.

Lemma Count_maskDomain domain c :
  Ascii.eqb "*" c = false → Ascii.eqb "." c = false →
  Count domain c = 0 → Count (maskDomain domain) c = 0.
Proof.
  intros Hstar Hdot Hd.
  pose proof (Count_Split_pieces domain "." c Hd) as Hall.
  pose proof (length_Split domain ".") as Hlen.
  destruct (Split domain ".") as [|l [|tld [|x more]]] eqn:Hs; [done| | |].
  - rewrite (maskDomain_one_label _ _ Hs). by apply star_label_clean.
  - rewrite (maskDomain_two_labels _ _ _ Hs).
    inversion_clear Hall as [|? ? _ Hall']. inversion_clear Hall' as [|? ? Ht _].
    rewrite Count_append, star_label_clean by done.
    change (Count ("." +:+ tld) c)
      with ((if Ascii.eqb "." c then 1 else 0) + Count tld c)%nat.
    by rewrite Hdot, Ht.
  - destruct (split_last_two (l :: tld :: x :: more)) as (rest & s2 & t2 & Hne & Heq);
      [simpl; lia|].
    rewrite Heq in Hs, Hall. rewrite (maskDomain_more_labels _ _ _ _ Hne Hs).
    apply (Count_Join _ "."); [done|]. by apply masked_labels_clean.
Qed.

Lemma maskEmail_parts username domain :
  Count username "@" = 0 → Count domain "@" = 0 →
  maskEmail (username +:+ "@" +:+ domain)
  = maskUsername username +:+ "@" +:+ maskDomain domain.
Proof.
  intros Hu Hd. unfold maskEmail.
  rewrite bool_decide_eq_false_2 by (by destruct username).
  change (username +:+ "@" +:+ domain) with (username +:+ String "@" domain).
  by rewrite Split_append_sep, (Split_no_sep domain) by done.
Qed.

Lemma tld_label_masked domain :
  (2 ≤ length (Split domain "."))%nat →
  tld_label (maskDomain domain) = tld_label domain.
Proof.
  intros Hlen. unfold tld_label.
  pose proof (Split_pieces_no_sep domain ".") as Hall.
  destruct (Split domain ".") as [|l [|tld [|x more]]] eqn:Hs; simpl in Hlen; try lia.
  - rewrite (maskDomain_two_labels _ _ _ Hs).
    inversion_clear Hall as [|? ? _ Hall']. inversion_clear Hall' as [|? ? Ht _].
    change (star_label l +:+ "." +:+ tld) with (star_label l +:+ String "." tld).
    rewrite Split_append_sep by (by apply star_label_clean).
    by rewrite Split_no_sep.
  - destruct (split_last_two (l :: tld :: x :: more)) as (rest & s2 & t2 & Hne & Heq);
      [simpl; lia|].
    rewrite Heq in Hs, Hall |- *. rewrite (maskDomain_more_labels _ _ _ _ Hne Hs).
    rewrite Split_Join; [|by destruct rest|by apply masked_labels_clean].
    by rewrite !last_app.
Qed.

(** C8 (as amended). For an address with exactly one at-sign, [maskEmail]
    keeps the first two and last two bytes of a local part longer than four
    bytes and stars the rest, stars a local part of at most four bytes
    entirely, stars a one-label domain entirely, stars the first of two labels
    and keeps the second, and with three labels or more keeps the last two
    and stars each earlier one.  So the result has exactly one at-sign and a
    local part of the same length, and the top-level label is kept whenever
    the domain has at least two labels. *)
Theorem maskEmail_shape (username domain : string) :
  Count username "@" = 0 → Count domain "@" = 0 →
  let masked := maskEmail (username +:+ "@" +:+ domain) in
  let labels := Split domain "." in
  ∃ maskedUsername maskedDomain,
    masked = maskedUsername +:+ "@" +:+ maskedDomain
    ∧ Split masked "@" = [maskedUsername; maskedDomain]
    ∧ String.length maskedUsername = String.length username
    ∧ ((String.length username ≤ 4)%nat →
         maskedUsername = Repeat "*" (String.length username))
    ∧ ((4 < String.length username)%nat →
         maskedUsername
         = substring 0 2 username
           +:+ Repeat "*" (String.length username - 4)
           +:+ substring (String.length username - 2) 2 username)
    ∧ (∀ label, labels = [label] → maskedDomain = star_label label)
    ∧ (∀ label tld, labels = [label; tld] →
         maskedDomain = star_label label +:+ "." +:+ tld)
    ∧ (∀ rest sld tld, rest ≠ [] → labels = rest ++ [sld; tld] →
         maskedDomain = Join ((star_label <$> rest) ++ [sld; tld]) ".")
    ∧ ((2 ≤ length labels)%nat → tld_label maskedDomain = tld_label domain).
Proof.
  intros Hu Hd masked labels.
  exists (maskUsername username), (maskDomain domain).
  assert (masked = maskUsername username +:+ "@" +:+ maskDomain domain) as Hm
    by (by apply maskEmail_parts).
  split_and!.
  - exact Hm.
  - rewrite Hm.
    change (maskUsername username +:+ "@" +:+ maskDomain domain)
      with (maskUsername username +:+ String "@" (maskDomain domain)).
    rewrite Split_append_sep by (by apply Count_maskUsername).
    by rewrite Split_no_sep by (by apply Count_maskDomain).
  - apply length_maskUsername.
  - intros Hle. unfold maskUsername.
    by destruct (Nat.leb_spec (String.length username) 4); [|lia].
  - intros Hgt. unfold maskUsername.
    by destruct (Nat.leb_spec (String.length username) 4); [lia|].
  - intros label. apply maskDomain_one_label.
  - intros label tld. apply maskDomain_two_labels.
  - intros rest sld tld. apply maskDomain_more_labels.
  - apply tld_label_masked.
Qed.

Lemma maskEmail_shape_gmail :
  Count "caidaoli" "@" = 0 ∧ Count "gmail.com" "@" = 0
  ∧ ∃ maskedUsername maskedDomain,
      maskEmail "caidaoli@gmail.com" = maskedUsername +:+ "@" +:+ maskedDomain
      ∧ String.length maskedUsername = 8
      ∧ tld_label maskedDomain = Some "com".
Proof.
  split; [reflexivity|]. split; [reflexivity|].
  destruct (maskEmail_shape "caidaoli" "gmail.com" eq_refl eq_refl)
    as (u & d & Hm & _ & Hl & _ & _ & _ & _ & _ & Ht).
  exists u, d. split; [exact Hm|]. split; [exact Hl|].
  apply Ht. vm_compute. lia.
Defined.

(** C8 as stated fails on a one-label domain: the address keeps its at-sign
    and the length of its local part, but its only label, the top-level one,
    is starred. *)
Lemma maskEmail_stars_single_label :
  Count "admin@localhost" "@" = 1
  ∧ maskEmail "admin@localhost" = "ad*in@*********"
  ∧ tld_label "localhost" = Some "localhost"
  ∧ tld_label "*********" = Some "*********"
  ∧ tld_label "*********" ≠ tld_label "localhost".
Proof. split_and!; try (vm_compute; reflexivity). vm_compute. discriminate. Qed.

(** C10. [maskEmail] returns the empty string for the empty string and
    returns its argument unchanged whenever splitting at the at-sign does not
    give exactly two parts, that is whenever the number of at-signs is not
    one; such a value reaches the [user_email] entry of [/api/tokens] as it
    is. *)
Theorem maskEmail_invalid_verbatim :
  maskEmail "" = ""
  ∧ (∀ email, length (Split email "@") ≠ 2 → maskEmail email = email)
  ∧ (∀ email, Count email "@" ≠ 1 → maskEmail email = email)
  ∧ maskEmail "not-an-address" = "not-an-address"
  ∧ maskEmail "a@b@example.com" = "a@b@example.com"
  ∧ (∀ usageResult limits,
       Auth.UsageLimits usageResult = Some limits →
       Types.UserInfo_Email limits ≠ "" →
       Count (Types.UserInfo_Email limits) "@" ≠ 1 →
       tokenUserEmail usageResult = Types.UserInfo_Email limits).
Proof.
  assert (Hsplit : ∀ email, length (Split email "@") ≠ 2 → maskEmail email = email).
  { intros email Hlen. unfold maskEmail. case_bool_decide as He; [done|].
    by destruct (Split email "@") as [|u [|d [|x more]]]. }
  assert (Hcount : ∀ email, Count email "@" ≠ 1 → maskEmail email = email).
  { intros email Hc. apply Hsplit. rewrite length_Split. lia. }
  split_and!; try done.
  intros usageResult limits Hl He Hc. unfold tokenUserEmail.
  rewrite Hl, bool_decide_eq_true_2 by done. by apply Hcount.
Qed.

End MaskEmail.

(** ** White-space trimming *)

(** The input's length is fuel enough: what [trimFront] returns starts with
    none of the encodings. *)
Lemma trimFront_done (encodings : list (list N)) fuel (bs : list N) :
  Forall (λ enc, enc ≠ []) encodings → (length bs ≤ fuel)%nat →
  List.find (Strings.hasPrefix (Strings.trimFront encodings fuel bs)) encodings = None.
Proof.
  intros Hne. revert bs. induction fuel as [|fuel IH]; intros bs Hlen.
  - destruct bs; [|simpl in Hlen; lia]. simpl.
    induction Hne as [|enc encs Henc _ IHe]; [done|]. simpl.
    by destruct enc.
  - simpl. destruct (List.find (Strings.hasPrefix bs) encodings) as [enc|] eqn:Hf; [|done].
    apply IH. apply find_some in Hf as [Hin Hp].
    rewrite Forall_forall in Hne. apply list_elem_of_In, Hne in Hin.
    rewrite length_drop. destruct enc; [done|]. destruct bs; [done|].
    simpl in *. lia.
Qed.

Lemma TrimSpace_front_done (s : string) :
  let bs := Strings.bytes s in
  List.find (Strings.hasPrefix (Strings.trimFront Strings.spaceEncodings (length bs) bs))
    Strings.spaceEncodings = None.
Proof.
  intros bs. apply trimFront_done; [|done].
  unfold Strings.spaceEncodings. by repeat constructor.
Qed.

Example TrimSpace_sentinel :
  Strings.TrimSpace "answer for user question" = "answer for user question".
Proof. vm_compute. reflexivity. Qed.

Example TrimSpace_blank :
  Strings.TrimSpace (Strings.ofBytes [0x20; 0x0A; 0xE3; 0x80; 0x80; 0x09]%N) = "".
Proof. vm_compute. reflexivity. Qed.

Example TrimSpace_inner :
  Strings.TrimSpace (Strings.ofBytes [0xC2; 0xA0]%N +:+ " a b " +:+ Strings.ofBytes [0x0D; 0x0A]%N)
  = "a b".
Proof. vm_compute. reflexivity. Qed.

(** ** Credential store *)

Section Store.
Import Auth Server.

Lemma save_ok cs fs : on_disk (save cs fs None).1 cs ∧ (save cs fs None).2 = None.
Proof. unfold on_disk. simpl. by rewrite lookup_insert_eq. Qed.

Lemma save_failed_file cs fs mishap old :
  fs !! filePath cs = Some (Stored old) → old ≠ configs cs →
  ¬ on_disk (save cs fs (Some mishap)).1 cs ∧ (save cs fs (Some mishap)).2 ≠ None.
Proof.
  intros Hfs Hne. unfold on_disk.
  destruct mishap; simpl; rewrite ?lookup_insert_eq, ?Hfs; split; congruence.
Qed.

Lemma in_range (index : Z) (n : nat) :
  (0 ≤ index < Z.of_nat n)%Z →
  ((index <? 0) || (index >=? Z.of_nat n))%Z = false.
Proof. intros H. apply orb_false_iff. split; lia. Qed.

(** C9. When [save] fails, [AddConfig], [UpdateConfig] and [DeleteConfig]
    return its error and keep the list they had already changed: the record is
    appended, replaced or removed in memory while the file does not hold the
    new list, so memory and file differ (always after an add or a delete,
    and after an update that changed the record). *)
Theorem failed_save_is_not_rolled_back
    (cs : ConfigStore) (fs : gmap string file) (mishap : fault)
    (config : AuthConfig) (index : Z) :
  on_disk fs cs →
  (0 ≤ index < Z.of_nat (length (configs cs)))%Z →
  (let '(cs', fs', err) := AddConfig cs fs config (Some mishap) in
   err ≠ None ∧ configs cs' = configs cs ++ [config] ∧ ¬ on_disk fs' cs')
  ∧ (let '(cs', fs', err) := UpdateConfig cs fs index config (Some mishap) in
     err ≠ None ∧ err ≠ Some ErrNotExist
     ∧ configs cs' = <[Z.to_nat index := config]> (configs cs)
     ∧ (configs cs' ≠ configs cs → ¬ on_disk fs' cs'))
  ∧ (let '(cs', fs', err) := DeleteConfig cs fs index (Some mishap) in
     err ≠ None ∧ err ≠ Some ErrNotExist
     ∧ configs cs' = take (Z.to_nat index) (configs cs)
                     ++ drop (S (Z.to_nat index)) (configs cs)
     ∧ ¬ on_disk fs' cs').
Proof.
  intros Hdisk Hidx. unfold on_disk in Hdisk. split_and!.
  - unfold AddConfig.
    destruct (save_failed_file (withConfigs cs (configs cs ++ [config])) fs mishap
                (configs cs)) as [Hd He]; [done| |].
    { simpl. intros H. apply (f_equal length) in H. rewrite length_app in H.
      simpl in H. lia. }
    destruct (save _ fs (Some mishap)) as [fs' err]. by split_and!.
  - unfold UpdateConfig. rewrite in_range by done.
    set (cs' := withConfigs cs _).
    assert ((save cs' fs (Some mishap)).2 ≠ None
            ∧ (save cs' fs (Some mishap)).2 ≠ Some ErrNotExist
            ∧ (configs cs' ≠ configs cs
               → ¬ on_disk (save cs' fs (Some mishap)).1 cs')) as H.
    { split_and!; [by destruct mishap..|]. intros Hne.
      by apply (save_failed_file cs' fs mishap (configs cs)). }
    destruct (save cs' fs (Some mishap)) as [fs' err]. simpl in H.
    destruct H as (? & ? & ?). by split_and!.
  - unfold DeleteConfig. rewrite in_range by done.
    replace (Z.to_nat (index + 1)) with (S (Z.to_nat index)) by lia.
    set (cs' := withConfigs cs _).
    assert ((save cs' fs (Some mishap)).2 ≠ None
            ∧ (save cs' fs (Some mishap)).2 ≠ Some ErrNotExist
            ∧ ¬ on_disk (save cs' fs (Some mishap)).1 cs') as H.
    { split_and!; [by destruct mishap..|].
      apply (save_failed_file cs' fs mishap (configs cs)); [done|].
      subst cs'. simpl. intros H. apply (f_equal length) in H.
      rewrite length_app, length_take, length_drop in H. lia. }
    destruct (save cs' fs (Some mishap)) as [fs' err]. simpl in H.
    destruct H as (? & ? & ?). by split_and!.
Qed.

Lemma failed_save_on_two_records :
  on_disk two_records_fs two_records
  ∧ (0 ≤ 1 < Z.of_nat (length (configs two_records)))%Z
  ∧ (let '(cs', fs', err) :=
       AddConfig two_records two_records_fs third_record (Some OpenFails) in
     err ≠ None ∧ length (configs cs') = 3 ∧ ¬ on_disk fs' cs').
Proof.
  assert (Hd : on_disk two_records_fs two_records) by reflexivity.
  assert (Hi : (0 ≤ 1 < Z.of_nat (length (configs two_records)))%Z)
    by (simpl; lia).
  split; [exact Hd|]. split; [exact Hi|].
  destruct (failed_save_is_not_rolled_back two_records two_records_fs OpenFails
              third_record 1 Hd Hi) as [Hadd _].
  destruct (AddConfig two_records two_records_fs third_record (Some OpenFails))
    as [[cs' fs'] err].
  destruct Hadd as (He & Hc & Hn). split; [exact He|]. split; [|exact Hn].
  rewrite Hc. reflexivity.
Defined.

End Store.

(** ** The non-streaming response *)

Section NonStreamResponse.
Import Types Server.
#[local] Open Scope Z_scope.

Variable EstimateTokens : CountTokensRequest → Z.
Variable EstimateTextTokens : string → Z.
Variable EstimateToolUseTokens : string → gomap → Z.
Variable filterSupportedTools : list AnthropicTool → list AnthropicTool.
Variable NewStopReasonManager : AnthropicRequest → StopReasonManager.

#[local] Abbreviation handle :=
  (handleNonStreamRequest EstimateTokens EstimateTextTokens EstimateToolUseTokens
     filterSupportedTools NewStopReasonManager).

#[local] Abbreviation estimate := (estimate EstimateTextTokens EstimateToolUseTokens).
#[local] Abbreviation delivered_tokens :=
  (delivered_tokens EstimateTextTokens EstimateToolUseTokens).

Lemma contexts_delivered textAgg (tools : list ToolExecution) :
  (if bool_decide (textAgg ≠ "") then [textBlock textAgg] else [])
  ++ (toolUseBlock <$> tools)
  = render <$> delivered_blocks textAgg tools.
Proof.
  unfold delivered_blocks. rewrite fmap_app, <- list_fmap_compose. f_equal.
  - repeat case_bool_decide; done.
  - apply list_fmap_ext. intros _ tool _. simpl. unfold toolUseBlock.
    by destruct (Arguments tool).
Qed.

Lemma addBlockTokens_render total block :
  addBlockTokens EstimateTextTokens EstimateToolUseTokens total (render block)
  = int_add total (estimate block).
Proof. by destruct block. Qed.

Lemma foldl_addBlockTokens blocks total :
  foldl (addBlockTokens EstimateTextTokens EstimateToolUseTokens) total
        (render <$> blocks)
  = foldl (λ total block, int_add total (estimate block)) total blocks.
Proof.
  revert total. induction blocks as [|b bs IH]; intros total; simpl; [done|].
  by rewrite addBlockTokens_render, IH.
Qed.

Lemma wrap64_small z : - 2 ^ 63 ≤ z < 2 ^ 63 → wrap64 z = z.
Proof. intros H. unfold wrap64. rewrite Z.mod_small; lia. Qed.

(** Without overflow the wrapped total is the plain sum of the estimates. *)
Lemma delivered_tokens_sum blocks :
  Forall (λ b, 0 ≤ estimate b) blocks →
  foldr (λ b acc, estimate b + acc) 0 blocks < 2 ^ 63 →
  delivered_tokens blocks = foldr (λ b acc, estimate b + acc) 0 blocks.
Proof.
  unfold delivered_tokens. intros Hpos Hsum.
  assert (Hgen : ∀ total, 0 ≤ total →
    total + foldr (λ b acc, estimate b + acc) 0 blocks < 2 ^ 63 →
    foldl (λ total block, int_add total (estimate block)) total blocks
    = total + foldr (λ b acc, estimate b + acc) 0 blocks).
  { clear Hsum. induction Hpos as [|b bs Hb Hbs IH]; intros total Ht Hlt; simpl in *.
    - lia.
    - assert (0 ≤ foldr (λ b acc, estimate b + acc) 0 bs) as Hrest.
      { clear -Hbs. induction Hbs; simpl; lia. }
      unfold int_add at 2. rewrite wrap64_small by lia.
      rewrite IH; lia. }
  rewrite Hgen; lia.
Qed.

Lemma clamp_output_tokens (blocks : list delivered) :
  (if (delivered_tokens blocks <? 1) && (0 <? length (render <$> blocks))%nat
   then 1 else delivered_tokens blocks)
  = match blocks with [] => 0 | _ :: _ => Z.max 1 (delivered_tokens blocks) end.
Proof.
  destruct blocks as [|b bs]; [done|].
  rewrite length_fmap. change (0 <? length (b :: bs))%nat with true.
  rewrite andb_true_r.
  destruct (Z.ltb_spec (delivered_tokens (b :: bs)) 1); lia.
Qed.

(** C3. The non-streaming response reports as [input_tokens] the estimate
    of the request with its tools filtered as they are sent upstream, and as
    [output_tokens] the estimates of the content blocks it delivers (the text
    estimate of a text block, the tool-use estimate of the name and input of a
    tool-use block), added up and raised to 1 when there is a block and the
    total is below 1; the count depends on the delivered blocks alone. *)
Theorem nonstream_usage_from_delivered_blocks
    (anthropicReq : AnthropicRequest) (textAgg : string)
    (activeTools completedTools : list ToolExecution) :
  let blocks := delivered_blocks textAgg (activeTools ++ completedTools) in
  ∃ resp,
    handle anthropicReq (Parsed textAgg activeTools completedTools)
    = MessageJSON 200 resp
    ∧ content resp = render <$> blocks
    ∧ input_tokens (usage resp)
      = EstimateTokens
          {| Count_Model := Model anthropicReq;
             Count_System := System anthropicReq;
             Count_Messages := Messages anthropicReq;
             Count_Tools := filterSupportedTools (Tools anthropicReq) |}
    ∧ output_tokens (usage resp)
      = match blocks with
        | [] => 0
        | _ :: _ => Z.max 1 (delivered_tokens blocks)
        end
    ∧ (content resp ≠ [] → 1 ≤ output_tokens (usage resp))
    ∧ (Forall (λ b, 0 ≤ estimate b) blocks →
       foldr (λ b acc, estimate b + acc) 0 blocks < 2 ^ 63 →
       delivered_tokens blocks = foldr (λ b acc, estimate b + acc) 0 blocks).
Proof.
  intros blocks. eexists. split; [reflexivity|]. simpl.
  rewrite contexts_delivered. fold blocks.
  rewrite foldl_addBlockTokens. fold (delivered_tokens blocks).
  rewrite clamp_output_tokens.
  split_and!; [done|done|done| |apply delivered_tokens_sum].
  destruct blocks; [done|]. intros _. lia.
Qed.

Lemma tool_use_block_from_tool textAgg (tools : list ToolExecution) block :
  block ∈ render <$> delivered_blocks textAgg tools →
  is_tool_use block → tools ≠ [].
Proof.
  unfold delivered_blocks. rewrite fmap_app, elem_of_app. intros [Hin|Hin] Htype.
  - case_bool_decide; [by apply elem_of_nil in Hin|].
    apply list_elem_of_singleton in Hin as ->. discriminate Htype.
  - intros ->. by apply elem_of_nil in Hin.
Qed.

(** In the non-streaming handler both tool flags are [sawToolUse], so a
    delivered tool-use block decides the stop reason whatever the request
    declared. *)
Lemma nonstream_stop_reason anthropicReq textAgg activeTools completedTools :
  ∃ resp,
    handle anthropicReq (Parsed textAgg activeTools completedTools)
    = MessageJSON 200 resp
    ∧ content resp = render <$> delivered_blocks textAgg (activeTools ++ completedTools)
    ∧ (activeTools ++ completedTools ≠ [] → stop_reason resp = "tool_use").
Proof.
  eexists. split; [reflexivity|]. simpl. split; [apply contexts_delivered|].
  intros Hne. unfold DetermineStopReason. simpl.
  by destruct (activeTools ++ completedTools).
Qed.

(** C2. A completed (non-streaming) response that carries a tool-use block,
    for a request that declared tools, has stop reason tool_use; and the
    policy ranks tool_use (tool use seen and tools requested) above
    max_tokens, that above stop_sequence, that above end_turn. *)
Theorem tool_use_decides_stop_reason
    (anthropicReq : AnthropicRequest) (textAgg : string)
    (activeTools completedTools : list ToolExecution) :
  (∃ resp,
     handle anthropicReq (Parsed textAgg activeTools completedTools)
     = MessageJSON 200 resp
     ∧ ((∃ block, block ∈ content resp ∧ is_tool_use block) →
        Tools anthropicReq ≠ [] →
        stop_reason resp = "tool_use"))
  ∧ (∀ m : StopReasonManager,
       (sawToolUse m = true → toolsWereRequested m = true →
        DetermineStopReason m = "tool_use")
       ∧ (sawToolUse m && toolsWereRequested m = false → hitMaxTokens m = true →
          DetermineStopReason m = "max_tokens")
       ∧ (sawToolUse m && toolsWereRequested m = false → hitMaxTokens m = false →
          stopSequenceMatched m = true →
          DetermineStopReason m = "stop_sequence")
       ∧ (sawToolUse m && toolsWereRequested m = false → hitMaxTokens m = false →
          stopSequenceMatched m = false →
          DetermineStopReason m = "end_turn")).
Proof.
  split.
  - destruct (nonstream_stop_reason anthropicReq textAgg activeTools completedTools)
      as (resp & Hr & Hc & Hs).
    exists resp. split; [exact Hr|]. intros (block & Hin & Htype) _.
    apply Hs. rewrite Hc in Hin. by eapply tool_use_block_from_tool.
  - intros m. unfold DetermineStopReason.
    split_and!; intros; repeat match goal with H : _ = _ |- _ => rewrite H end; done.
Qed.

End NonStreamResponse.

(** ** POST /v1/messages *)

Section MessagesHandler.
Import Types Server.

Lemma normalizeToolsArray_omap toolsArray normalizedTools :
  normalizeToolsArray toolsArray normalizedTools
  = normalizedTools ++ omap normalizeTool toolsArray.
Proof.
  revert normalizedTools.
  induction toolsArray as [|tool rest IH]; intros acc; simpl.
  - by rewrite app_nil_r.
  - destruct (normalizeTool tool); rewrite IH; [|done]. by rewrite <- app_assoc.
Qed.

Lemma normalizeTool_canonical tool :
  is_canonical tool → JObj <$> normalizeTool tool = Some tool.
Proof. by intros (name & description & inputSchema & ->). Qed.

Lemma normalize_canonical_array toolsArray :
  Forall is_canonical toolsArray →
  JObj <$> omap normalizeTool toolsArray = toolsArray.
Proof.
  induction 1 as [|tool rest Htool _ IH]; [done|].
  destruct Htool as (name & description & inputSchema & ->).
  change (omap normalizeTool (JObj (canonical_tool name description inputSchema) :: rest))
    with (canonical_tool name description inputSchema :: omap normalizeTool rest).
  by rewrite fmap_cons, IH.
Qed.

(** C6 (as amended). Tool normalization goes through the [tools] array in
    order.  An entry that is an object with the keys [name], [description]
    and [input_schema] becomes the canonical tool object with these three
    values; every other entry that is an object is kept as it is; an entry
    that is not an object is left out.  Nothing else in the request changes,
    and a request whose tools are all canonical objects is left unchanged,
    as a map and so up to the order of keys in its serialization. *)
Theorem tools_are_canonicalized :
  (∀ toolMap name description inputSchema,
     toolMap !! "name" = Some name →
     toolMap !! "description" = Some description →
     toolMap !! "input_schema" = Some inputSchema →
     normalizeTool (JObj toolMap)
     = Some (canonical_tool name description inputSchema))
  ∧ (∀ toolMap,
       toolMap !! "name" = None ∨ toolMap !! "description" = None
       ∨ toolMap !! "input_schema" = None →
       normalizeTool (JObj toolMap) = Some toolMap)
  ∧ (∀ tool, (∀ toolMap, tool ≠ JObj toolMap) → normalizeTool tool = None)
  ∧ (∀ rawReq toolsArray,
       rawReq !! "tools" = Some (JArr toolsArray) →
       normalizeRawRequest rawReq
       = <["tools" := JArr (JObj <$> omap normalizeTool toolsArray)]> rawReq)
  ∧ (∀ rawReq,
       (∀ toolsArray, rawReq !! "tools" ≠ Some (JArr toolsArray)) →
       normalizeRawRequest rawReq = rawReq)
  ∧ (∀ rawReq toolsArray,
       rawReq !! "tools" = Some (JArr toolsArray) →
       Forall is_canonical toolsArray →
       normalizeRawRequest rawReq = rawReq).
Proof.
  assert (Harr : ∀ rawReq toolsArray,
    rawReq !! "tools" = Some (JArr toolsArray) →
    normalizeRawRequest rawReq
    = <["tools" := JArr (JObj <$> omap normalizeTool toolsArray)]> rawReq).
  { intros rawReq toolsArray Ht. unfold normalizeRawRequest.
    by rewrite Ht, normalizeToolsArray_omap. }
  split_and!.
  - intros toolMap name description inputSchema Hn Hd Hi. simpl.
    by rewrite Hn, Hd, Hi.
  - intros toolMap H. simpl.
    destruct (toolMap !! "name"), (toolMap !! "description"),
      (toolMap !! "input_schema"); try done; by destruct H as [|[|]].
  - intros [] H; try done. by destruct (H m).
  - exact Harr.
  - intros rawReq H. unfold normalizeRawRequest.
    destruct (rawReq !! "tools") as [[]|] eqn:Ht; try done. by destruct (H l).
  - intros rawReq toolsArray Ht Hcanon.
    rewrite (Harr _ _ Ht), normalize_canonical_array by done.
    by apply insert_id.
Qed.

(** C6 as stated fails on an entry that is not an object: the string entry
    does not have the tool shape, yet it is not passed through but left out
    of the normalized array. *)
Lemma non_object_tool_is_dropped :
  normalizeTool (JStr "bash") = None
  ∧ normalizeRawRequest {[ "tools" := JArr [JStr "bash"] ]} = {[ "tools" := JArr [] ]}
  ∧ normalizeRawRequest {[ "tools" := JArr [JStr "bash"] ]}
    ≠ {[ "tools" := JArr [JStr "bash"] ]}.
Proof.
  split_and!; [reflexivity|reflexivity|].
  intros H. apply (f_equal (lookup "tools")) in H. vm_compute in H. discriminate H.
Qed.

Variable SafeUnmarshal_map : string → option (gmap string json).
Variable SafeMarshal : gmap string json → option string.
Variable SafeUnmarshal_AnthropicRequest : string → option AnthropicRequest.
Variable GetMessageContent : json → option string.

#[local] Abbreviation serve :=
  (messagesHandler SafeUnmarshal_map SafeMarshal SafeUnmarshal_AnthropicRequest
     GetMessageContent).

#[local] Abbreviation parses_as :=
  (parses_as SafeUnmarshal_map SafeMarshal SafeUnmarshal_AnthropicRequest).

(** C5. When the parsed request has no messages, or the text of its last
    message is empty once trimmed, or that text is the placeholder, the
    handler answers 400 and hands the request to neither upstream-calling
    handler. *)
Theorem messages_rejects_empty_request
    (token : TokenWithUsage) (body : string) (req : AnthropicRequest) :
  parses_as body req →
  (Messages req = []
   ∨ ∃ lastMsg text,
       last (Messages req) = Some lastMsg
       ∧ GetMessageContent (Content lastMsg) = Some text
       ∧ (Strings.TrimSpace text = "" ∨ text = "answer for user question")) →
  (∃ message, serve (Some (token, body)) = RespondError 400 message)
  ∧ ¬ calls_upstream (serve (Some (token, body))).
Proof.
  intros (rawReq & normalizedBody & Hraw & Hmarshal & Hreq) Hbad.
  assert (∃ message, serve (Some (token, body)) = RespondError 400 message)
    as [message Hm].
  { unfold messagesHandler. rewrite Hraw, Hmarshal, Hreq.
    unfold validateAndDispatch.
    destruct Hbad as [->|(lastMsg & text & -> & -> & Htext)]; [by eexists|].
    destruct Htext as [->| ->]; [by eexists|].
    rewrite TrimSpace_sentinel. by eexists. }
  split; [by exists message|]. rewrite Hm. simpl. tauto.
Qed.

End MessagesHandler.

Lemma messages_rejects_no_messages :
  let serve :=
    Server.messagesHandler (λ _, Some ∅) (λ _, Some "{}") (λ _, Some no_messages)
      (λ _, Some "") in
  (∃ message, serve (Some (some_token, "{}")) = Server.RespondError 400 message)
  ∧ ¬ calls_upstream (serve (Some (some_token, "{}"))).
Proof.
  apply (messages_rejects_empty_request
           (λ _, Some ∅) (λ _, Some "{}") (λ _, Some no_messages) (λ _, Some "")
           some_token "{}" no_messages).
  - exists ∅, "{}". by split_and!.
  - by left.
Defined.

Example messages_rejects_blank_message :
  Server.messagesHandler (λ _, Some ∅) (λ _, Some "{}") (λ _, Some blank_message)
    string_content (Some (some_token, "{}"))
  = Server.RespondError 400 "消息内容不能为空".
Proof. vm_compute. reflexivity. Qed.

(* ===================================================================== *)
(** * Part IV: further properties of the code *)
(* ===================================================================== *)

(** ** Credential records at runtime *)

Section RuntimeRecords.
Import Auth.

Lemma ready_is_usable c : ready_record c → runtime_usable c ∧ default_social c = c.
Proof.
  intros [(Hr & Ha & Hidc) Hd]. split.
  - split_and!; [done| |done]. intros [Hi [?|?]]; by destruct (Hidc Hi).
  - unfold default_social. by rewrite bool_decide_eq_false_2.
Qed.

Lemma usable_default_is_ready c : runtime_usable c → ready_record (default_social c).
Proof.
  intros (Hr & Hidc & Hd).
  destruct (default_social_fields c) as (Er & Ei & Es & Ed & Hiff).
  split; [|by rewrite Ed]. split_and!.
  - by rewrite Er.
  - unfold default_social. by case_bool_decide.
  - intros Hi. rewrite Ei, Es. apply Hiff in Hi.
    split; intros ?; apply Hidc; auto.
Qed.

Lemma processConfigs_map_filter cs :
  processConfigs cs = default_social <$> filter runtime_usable cs.
Proof. unfold processConfigs. by rewrite processConfigs_from_spec. Qed.

Lemma processConfigs_ready_fixed cs :
  Forall ready_record cs → processConfigs cs = cs.
Proof.
  rewrite processConfigs_map_filter.
  induction 1 as [|c cs Hc _ IH]; [done|].
  destruct (ready_is_usable c Hc) as [Hu Hd].
  rewrite filter_cons_True by done. by rewrite fmap_cons, Hd, IH.
Qed.

Lemma usable_records_ready cs :
  Forall ready_record (default_social <$> filter runtime_usable cs).
Proof.
  apply Forall_fmap. induction cs as [|c cs IH]; [constructor|].
  destruct (decide (runtime_usable c)) as [Hu|Hu].
  - rewrite filter_cons_True by done. constructor; [|done].
    by apply usable_default_is_ready.
  - by rewrite filter_cons_False.
Qed.

(** X1. Every record [processConfigs] returns has a refresh token and an
    auth type, is not disabled and, when its auth type is IdC, has a client
    id and a client secret. *)
Theorem processConfigs_returns_ready (configs : list AuthConfig) :
  Forall ready_record (processConfigs configs).
Proof.
  rewrite processConfigs_map_filter.
  apply usable_records_ready.
Qed.

(** X2. Filtering twice changes nothing: [processConfigs] is idempotent. *)
Theorem processConfigs_idempotent (configs : list AuthConfig) :
  processConfigs (processConfigs configs) = processConfigs configs.
Proof.
  apply processConfigs_ready_fixed.
  rewrite processConfigs_map_filter. apply usable_records_ready.
Qed.

(** X3. Records are judged one by one: the result for a concatenation is
    the concatenation of the results, and it is never longer than the
    input. *)
Theorem processConfigs_app (front back : list AuthConfig) :
  processConfigs (front ++ back) = processConfigs front ++ processConfigs back
  ∧ (length (processConfigs front) ≤ length front)%nat.
Proof.
  rewrite !processConfigs_map_filter. split.
  - by rewrite filter_app, fmap_app.
  - rewrite length_fmap. apply length_filter.
Qed.

End RuntimeRecords.

(** ** Loading the credentials *)

Section LoadingConfigs.
Import Auth.

Variable Unmarshal_configs : string → option (list AuthConfig).
Variable Unmarshal_config : string → option AuthConfig.

#[local] Abbreviation parse := (parseJSONConfig Unmarshal_configs Unmarshal_config).
#[local] Abbreviation fromFile := (loadFromConfigFile Unmarshal_configs Unmarshal_config).
#[local] Abbreviation load := (loadConfigs Unmarshal_configs Unmarshal_config).

Lemma positive_length {A} (l : list A) : (0 <? length l)%nat = true ↔ l ≠ [].
Proof. destruct l; simpl; split; try done. Qed.

Lemma loadFromConfigFile_Some os valid :
  fromFile os = Some valid →
  ∃ configs, valid = processConfigs configs ∧ valid ≠ [].
Proof.
  unfold loadFromConfigFile.
  destruct (statsAsFile os _); [|done].
  destruct (ReadFile os _) as [content|]; [|done].
  destruct (2 <? String.length content)%nat; [|done].
  destruct (parseJSONConfig _ _ content) as [configs|]; [|done].
  destruct (0 <? length configs)%nat; [|done].
  destruct (0 <? length (processConfigs configs))%nat eqn:Hv; [|done].
  intros [= <-]. exists configs. split; [done|]. by apply positive_length.
Qed.

Lemma loadConfigs_inl os valid :
  load os = inl valid → ∃ configs, valid = processConfigs configs ∧ valid ≠ [].
Proof.
  unfold loadConfigs.
  destruct (fromFile os) as [v|] eqn:Hfile.
  - intros [= <-]. by apply loadFromConfigFile_Some in Hfile.
  - case_bool_decide; [done|].
    destruct (if statsAsFile os _ then _ else _) as [configData|]; [|done].
    destruct (parseJSONConfig _ _ configData) as [configs|]; [|done].
    destruct (length configs =? 0)%nat; [done|].
    destruct (length (processConfigs configs) =? 0)%nat eqn:Hv; [done|].
    intros [= <-]. exists configs. split; [done|].
    intros Hnil. rewrite Hnil in Hv. done.
Qed.

(** X4. When [loadConfigs] succeeds, the list it returns is not empty and
    holds only records ready for use. *)
Theorem loadConfigs_success_nonempty_ready (os : OS) (valid : list AuthConfig) :
  load os = inl valid → valid ≠ [] ∧ Forall ready_record valid.
Proof.
  intros Hload. apply loadConfigs_inl in Hload as (configs & -> & Hne).
  split; [done|]. rewrite processConfigs_map_filter. apply usable_records_ready.
Qed.

(** X5. The configuration file wins: when it is a readable file of more
    than two bytes that parses to records of which at least one is valid,
    [loadConfigs] returns its valid records, whatever KIRO_AUTH_TOKEN holds. *)
Theorem loadConfigs_prefers_config_file
    (os : OS) (content : string) (configs : list AuthConfig) :
  files os !! config_file_path os = Some (RegularFile (Some content)) →
  (2 < String.length content)%nat →
  parse content = Some configs →
  processConfigs configs ≠ [] →
  load os = inl (processConfigs configs).
Proof.
  intros Hfile Hlen Hparse Hvalid.
  unfold loadConfigs, loadFromConfigFile. fold (config_file_path os).
  unfold statsAsFile, ReadFile. rewrite Hfile.
  replace (2 <? String.length content)%nat with true
    by (symmetry; by apply Nat.ltb_lt).
  rewrite Hparse.
  assert (configs ≠ []) as Hne by (intros ->; by apply Hvalid).
  apply positive_length in Hne as ->. by apply positive_length in Hvalid as ->.
Qed.

(** X6. Without a configuration file the environment decides: an unset
    KIRO_AUTH_TOKEN is an error, a value naming an unreadable file is an
    error, and a value that names no file is parsed as inline JSON, giving
    the valid records of what it parses to. *)
Theorem loadConfigs_falls_back_to_environment (os : OS) :
  files os !! config_file_path os = None →
  (Getenv os "KIRO_AUTH_TOKEN" = "" → load os = inr ErrNoAuthConfig)
  ∧ (files os !! Getenv os "KIRO_AUTH_TOKEN" = Some (RegularFile None) →
     Getenv os "KIRO_AUTH_TOKEN" ≠ "" → load os = inr ErrReadConfigFile)
  ∧ (∀ configs,
       Getenv os "KIRO_AUTH_TOKEN" ≠ "" →
       files os !! Getenv os "KIRO_AUTH_TOKEN" = None →
       parse (Getenv os "KIRO_AUTH_TOKEN") = Some configs →
       load os = if decide (configs = []) then inr ErrEmptyAuthToken
                 else if decide (processConfigs configs = []) then inr ErrNoValidConfig
                 else inl (processConfigs configs)).
Proof.
  intros Hfile.
  assert (fromFile os = None) as Hnone.
  { unfold loadFromConfigFile. fold (config_file_path os).
    unfold statsAsFile. by rewrite Hfile. }
  unfold loadConfigs. rewrite Hnone. split_and!.
  - intros ->. done.
  - intros Hf Hne. rewrite bool_decide_eq_false_2 by done.
    unfold statsAsFile, ReadFile. by rewrite Hf.
  - intros configs Hne Hf Hparse. rewrite bool_decide_eq_false_2 by done.
    unfold statsAsFile. rewrite Hf, Hparse.
    destruct configs as [|c cs]; [done|]. simpl length. simpl Nat.eqb.
    destruct (decide (c :: cs = [])); [done|].
    destruct (processConfigs (c :: cs)) as [|v vs]; [done|].
    by destruct (decide (v :: vs = [])).
Qed.

End LoadingConfigs.

Section LoadingExamples.
Import Auth.

Lemma loadConfigs_prefers_config_file_example :
  loadConfigs parse_one_record (λ _, None) file_and_environment
  = inl (processConfigs [one_social_record])
  ∧ parseJSONConfig parse_one_record (λ _, None)
      (Getenv file_and_environment "KIRO_AUTH_TOKEN") = None.
Proof.
  split; [|reflexivity].
  apply (loadConfigs_prefers_config_file parse_one_record (λ _, None)
           file_and_environment "[{}]" [one_social_record]).
  - reflexivity.
  - simpl. lia.
  - reflexivity.
  - vm_compute. discriminate.
Defined.

Lemma loadConfigs_falls_back_example :
  files inline_only !! config_file_path inline_only = None
  ∧ loadConfigs parse_one_record (λ _, None) inline_only
    = inl (processConfigs [one_social_record]).
Proof.
  assert (Hfile : files inline_only !! config_file_path inline_only = None)
    by reflexivity.
  split; [exact Hfile|].
  destruct (loadConfigs_falls_back_to_environment parse_one_record (λ _, None)
              inline_only Hfile) as (_ & _ & Hinline).
  rewrite (Hinline [one_social_record]).
  - vm_compute. reflexivity.
  - vm_compute. discriminate.
  - reflexivity.
  - reflexivity.
Defined.

Lemma loadConfigs_inline_example :
  loadConfigs (λ _, Some [one_social_record]) (λ _, None) inline_only
  = inl [ {| AuthType := "Social"; RefreshToken := "r1"; ClientID := "";
             ClientSecret := ""; Disabled := false |} ]
  ∧ [ {| AuthType := "Social"; RefreshToken := "r1"; ClientID := "";
         ClientSecret := ""; Disabled := false |} ] ≠ [].
Proof.
  assert (H : loadConfigs (λ _, Some [one_social_record]) (λ _, None) inline_only
              = inl [ {| AuthType := "Social"; RefreshToken := "r1"; ClientID := "";
                         ClientSecret := ""; Disabled := false |} ])
    by (vm_compute; reflexivity).
  split; [exact H|].
  exact (proj1 (loadConfigs_success_nonempty_ready
                  (λ _, Some [one_social_record]) (λ _, None) inline_only _ H)).
Defined.

End LoadingExamples.


(** ** Prefixes *)

Section Prefixes.
Import Strings.

Lemma substring_whole s : substring 0 (String.length s) s = s.
Proof. induction s as [|b s IH]; simpl; [done|]. by rewrite IH. Qed.

Lemma HasPrefix_append p s : HasPrefix (p +:+ s) p = true.
Proof.
  unfold HasPrefix. induction p as [|b p IH]; simpl; [by destruct s|].
  by destruct (ascii_dec b b).
Qed.

Lemma TrimPrefix_append p s : TrimPrefix (p +:+ s) p = s.
Proof.
  unfold TrimPrefix. rewrite HasPrefix_append.
  induction p as [|b p IH]; simpl.
  - rewrite Nat.sub_0_r. apply substring_whole.
  - exact IH.
Qed.

End Prefixes.

(** ** The usage prober and the pool's view of the quota *)

Section ProberInvariants.
Import Types Auth.
#[local] Open Scope Q_scope.

Variable SafeUnmarshal_map : string → option (gmap string json).
Variable SafeUnmarshal_UsageLimits : string → option Types.UsageLimits.
Variable unmarshalErrorText : string.

#[local] Abbreviation probe :=
  (CheckUsageLimitsWithStatus SafeUnmarshal_map SafeUnmarshal_UsageLimits).
#[local] Abbreviation compat :=
  (CheckUsageLimits SafeUnmarshal_map SafeUnmarshal_UsageLimits unmarshalErrorText).

Lemma tallyUsage_consistent breakdowns result :
  consistent_totals result → consistent_totals (tallyUsage breakdowns result).
Proof.
  intros Hr. induction breakdowns as [|b bs IH]; simpl; [done|].
  case_bool_decide; [|done]. unfold consistent_totals. simpl.
  apply clamp_is_Qmax.
Qed.

Lemma tallyUsage_frame breakdowns result :
  UsageLimits (tallyUsage breakdowns result) = UsageLimits result
  ∧ Status (tallyUsage breakdowns result) = Status result
  ∧ BanReason (tallyUsage breakdowns result) = BanReason result
  ∧ Error (tallyUsage breakdowns result) = Error result.
Proof.
  induction breakdowns as [|b bs IH]; simpl; [done|]. by case_bool_decide.
Qed.

Lemma probe_totals_consistent x : consistent_totals (probe x).
Proof.
  assert (Hzero : (0 : Q) == Qmax 0 (0 - 0)) by (by vm_compute).
  destruct x as [c|c|c|code body]; try exact Hzero.
  unfold CheckUsageLimitsWithStatus. case_bool_decide.
  - destruct (SafeUnmarshal_map body) as [m|]; [|exact Hzero].
    destruct (m !! "reason") as [[]|]; exact Hzero.
  - destruct (SafeUnmarshal_UsageLimits body) as [limits|]; [|exact Hzero].
    destruct (Qlt_le_dec _ _); apply tallyUsage_consistent; exact Hzero.
Qed.

Lemma probe_available_nonneg x : 0 <= Available (probe x).
Proof.
  pose proof (probe_totals_consistent x) as H. unfold consistent_totals in H.
  rewrite H. apply Q.le_max_l.
Qed.

Lemma probe_status_cases x :
  Status (probe x) = AccountStatusActive ∨ Status (probe x) = AccountStatusExhausted
  ∨ Status (probe x) = AccountStatusBanned ∨ Status (probe x) = AccountStatusError.
Proof.
  destruct x as [c|c|c|code body]; simpl; auto.
  case_bool_decide.
  - destruct (SafeUnmarshal_map body) as [m|]; auto.
    destruct (m !! "reason") as [[]|]; auto.
  - destruct (SafeUnmarshal_UsageLimits body); auto.
    destruct (Qlt_le_dec _ _); auto.
Qed.

(** X7. Whatever the probe meets, the available quota it reports is never
    negative and is the total limit minus the total used, cut off at 0; the
    result carries no error exactly when the status is active or exhausted,
    which is exactly when it carries the parsed usage limits; and a banned
    result reports nothing available and the ban as its error. *)
Theorem probe_result_is_consistent (x : exchange) :
  let r := probe x in
  0 <= Available r
  ∧ Available r == Qmax 0 (TotalLimit r - TotalUsed r)
  ∧ (Error r = None
     ↔ Status r = AccountStatusActive ∨ Status r = AccountStatusExhausted)
  ∧ (Error r = None ↔ is_Some (UsageLimits r))
  ∧ (Status r = AccountStatusBanned
     → Available r == 0 ∧ Error r = Some (ErrBanned (BanReason r))).
Proof.
  assert (Hzero : (0 : Q) == Qmax 0 (0 - 0)) by (by vm_compute).
  assert (Hleaf : ∀ (s reason : string) (e : error),
    s = AccountStatusError ∨ (s = AccountStatusBanned ∧ e = ErrBanned reason) →
    let r := {| UsageLimits := None; Status := s; BanReason := reason;
                Available := 0; TotalLimit := 0; TotalUsed := 0;
                Error := Some e |} in
    0 <= Available r
    ∧ Available r == Qmax 0 (TotalLimit r - TotalUsed r)
    ∧ (Error r = None
       ↔ Status r = AccountStatusActive ∨ Status r = AccountStatusExhausted)
    ∧ (Error r = None ↔ is_Some (UsageLimits r))
    ∧ (Status r = AccountStatusBanned
       → Available r == 0 ∧ Error r = Some (ErrBanned (BanReason r)))).
  { intros s reason e Hs. simpl. split_and!.
    - apply Qle_refl.
    - exact Hzero.
    - split; [done|]. by destruct Hs as [->|[-> _]]; intros [|].
    - split; [done|]. by intros [? ?].
    - destruct Hs as [->|[_ ->]]; [done|]. intros _. split; [reflexivity|done]. }
  destruct x as [c|c|c|code body]; try (apply (Hleaf _ "" _); by left).
  unfold CheckUsageLimitsWithStatus. case_bool_decide.
  - destruct (SafeUnmarshal_map body) as [m|]; [|apply (Hleaf _ "" _); by left].
    destruct (m !! "reason") as [[]|]; try (apply (Hleaf _ "" _); by left).
    apply (Hleaf _ s _). by right.
  - destruct (SafeUnmarshal_UsageLimits body) as [limits|];
      [|apply (Hleaf _ "" _); by left].
    set (r0 := {| UsageLimits := Some limits; Status := AccountStatusError;
                  BanReason := ""; Available := 0; TotalLimit := 0;
                  TotalUsed := 0; Error := None |}).
    destruct (tallyUsage_frame (UsageBreakdownList limits) r0) as (Hu & _ & _ & He).
    pose proof (tallyUsage_consistent (UsageBreakdownList limits) r0 Hzero) as Hc.
    unfold consistent_totals in Hc.
    destruct (Qlt_le_dec _ _); simpl; rewrite Hu, He; simpl.
    + split_and!; [rewrite Hc; apply Q.le_max_l|exact Hc|split; auto|split; eauto|done].
    + split_and!; [rewrite Hc; apply Q.le_max_l|exact Hc|split; auto|split; eauto|done].
Qed.

(** X8. [IsBannedError] reads back what [CheckUsageLimits] encodes: the
    error it returns is recognised as a ban exactly when the probe's status
    is banned, and then with the probe's ban reason; no other error of the
    probe is taken for a ban.  The limits are returned exactly when there is
    no error. *)
Theorem IsBannedError_reads_back_the_ban (x : exchange) :
  let r := probe x in
  IsBannedError (compat x).2
  = (if decide (Status r = AccountStatusBanned) then (true, BanReason r)
     else (false, ""))
  ∧ ((compat x).2 = None ↔ Error r = None)
  ∧ (compat x).1 = (if decide (Error r = None) then UsageLimits r else None).
Proof.
  assert (Hleaf : ∀ e : error,
    let r := {| UsageLimits := None; Status := AccountStatusError; BanReason := "";
                Available := 0; TotalLimit := 0; TotalUsed := 0;
                Error := Some e |} in
    IsBannedError (Some (errorText unmarshalErrorText e))
    = (if decide (Status r = AccountStatusBanned) then (true, BanReason r)
       else (false, ""))
    ∧ (Some (errorText unmarshalErrorText e) = None ↔ Error r = None)
    ∧ None = (if decide (Error r = None) then UsageLimits r else None)).
  { intros e. simpl. split_and!; [|done|done]. by destruct e. }
  destruct x as [c|c|c|code body]; try (by apply Hleaf).
  unfold CheckUsageLimits, CheckUsageLimitsWithStatus. case_bool_decide.
  - destruct (SafeUnmarshal_map body) as [m|]; [|by apply Hleaf].
    destruct (m !! "reason") as [[]|]; try (by apply Hleaf).
    simpl. split_and!; [|done|done].
    unfold IsBannedError. by rewrite HasPrefix_append, TrimPrefix_append.
  - destruct (SafeUnmarshal_UsageLimits body) as [limits|]; [|by apply Hleaf].
    set (r0 := {| UsageLimits := Some limits; Status := AccountStatusError;
                  BanReason := ""; Available := 0; TotalLimit := 0;
                  TotalUsed := 0; Error := None |}).
    destruct (tallyUsage_frame (UsageBreakdownList limits) r0) as (Hu & _ & _ & He).
    destruct (Qlt_le_dec _ _); simpl; rewrite !He, ?Hu; simpl; by split_and!.
Qed.






End ProberInvariants.

Section QuotaExamples.
Import Types Auth.
#[local] Open Scope Q_scope.




End QuotaExamples.

(** ** Token previews *)

Section TokenPreviews.
Import Types Server Strings.

Lemma substring_split s n :
  (n ≤ String.length s)%nat →
  s = substring 0 n s +:+ substring n (String.length s - n) s.
Proof.
  revert n. induction s as [|b s IH]; intros n Hn; simpl in *.
  - by destruct n.
  - destruct n as [|n]; simpl.
    + by rewrite substring_whole.
    + change (String b s = String b (substring 0 n s +:+ substring n (String.length s - n) s)).
      f_equal. apply IH. lia.
Qed.

(** X11. The two token previews of the code agree.  A token of at most
    10 bytes is shown as that many stars; a longer one as three stars and
    its last 10 bytes, so a preview is at most 13 bytes long and shows
    nothing of the token before its last 10 bytes. *)
Theorem token_preview_shows_last_ten (t : TokenWithUsage) :
  let token := AccessToken t in
  let n := String.length token in
  GenerateTokenPreview t = createTokenPreview token
  ∧ String.length (createTokenPreview token) = (if (n <=? 10)%nat then n else 13)
  ∧ ((n ≤ 10)%nat → createTokenPreview token = Repeat "*" n)
  ∧ ((10 < n)%nat →
     ∃ hidden shown,
       token = hidden +:+ shown
       ∧ String.length shown = 10
       ∧ createTokenPreview token = "***" +:+ shown).
Proof.
  intros token n. unfold GenerateTokenPreview, createTokenPreview.
  fold token. fold n. split_and!.
  - done.
  - destruct (Nat.leb_spec n 10); [apply length_Repeat_star|].
    by rewrite length_append, length_substring by lia.
  - intros Hle. by destruct (Nat.leb_spec n 10); [|lia].
  - intros Hgt. destruct (Nat.leb_spec n 10); [lia|].
    exists (substring 0 (n - 10) token), (substring (n - 10) 10 token).
    split_and!; [|by rewrite length_substring by lia|done].
    rewrite (substring_split token (n - 10)) at 1 by lia.
    by replace (String.length token - (n - 10))%nat with 10%nat by (subst n; lia).
Qed.

End TokenPreviews.

(** ** The credential store: persistence and bounds *)

Section StoreOperations.
Import Auth Server.


Lemma InitConfigStore_stored path fs records :
  fs !! path = Some (Stored records) →
  InitConfigStore path fs false = ({| configs := records; filePath := path |}, None).
Proof. intros H. unfold InitConfigStore, load. simpl. by rewrite H. Qed.

(** X12. What was saved is what a restart loads: after an [AddConfig],
    [UpdateConfig] or [DeleteConfig] whose save went through, initialising a
    store from the same path gives the store just left in memory. *)
Theorem saved_store_loads_back
    (cs : ConfigStore) (fs : gmap string file) (config : AuthConfig) (index : Z) :
  (0 ≤ index < Z.of_nat (length (configs cs)))%Z →
  (let '(cs', fs', err) := AddConfig cs fs config None in
   err = None ∧ InitConfigStore (filePath cs) fs' false = (cs', None))
  ∧ (let '(cs', fs', err) := UpdateConfig cs fs index config None in
     err = None ∧ InitConfigStore (filePath cs) fs' false = (cs', None))
  ∧ (let '(cs', fs', err) := DeleteConfig cs fs index None in
     err = None ∧ InitConfigStore (filePath cs) fs' false = (cs', None)).
Proof.
  intros Hidx. unfold AddConfig, UpdateConfig, DeleteConfig.
  rewrite in_range by done. simpl.
  split_and!; try done;
    unfold InitConfigStore, load; simpl; by rewrite lookup_insert_eq.
Qed.

Lemma saved_store_loads_back_example :
  (0 ≤ 1 < Z.of_nat (length (configs two_records)))%Z
  ∧ (let '(cs', fs', err) := DeleteConfig two_records two_records_fs 1 None in
     err = None ∧ InitConfigStore (filePath two_records) fs' false = (cs', None)).
Proof.
  assert (Hi : (0 ≤ 1 < Z.of_nat (length (configs two_records)))%Z)
    by (simpl; lia).
  split; [exact Hi|].
  exact (proj2 (proj2 (saved_store_loads_back two_records two_records_fs
                         third_record 1 Hi))).
Defined.

(** X13. A save that fails after the file was truncated costs the stored
    records: a restart then fails to load and starts with an empty list,
    although the running store still holds the old records and the new one.
    A save that fails before the file is opened leaves the old list there to
    be loaded. *)
Theorem truncating_failure_loses_the_file
    (cs : ConfigStore) (fs : gmap string file) (config : AuthConfig) :
  on_disk fs cs →
  (let '(cs', fs', err) := AddConfig cs fs config (Some WriteFails) in
   err = Some ErrWriteFile
   ∧ configs cs' = configs cs ++ [config]
   ∧ InitConfigStore (filePath cs) fs' false
     = ({| configs := []; filePath := filePath cs |}, Some ErrUnmarshal))
  ∧ (let '(cs', fs', err) := AddConfig cs fs config (Some OpenFails) in
     err = Some ErrWriteFile
     ∧ InitConfigStore (filePath cs) fs' false = (cs, None)).
Proof.
  intros Hdisk. unfold on_disk in Hdisk. unfold AddConfig. simpl. split_and!; try done.
  - unfold InitConfigStore, load. simpl. by rewrite lookup_insert_eq.
  - unfold InitConfigStore, load. simpl. rewrite Hdisk. by destruct cs.
Qed.

Lemma truncating_failure_example :
  on_disk two_records_fs two_records
  ∧ (let '(cs', fs', err) :=
       AddConfig two_records two_records_fs third_record (Some WriteFails) in
     err = Some ErrWriteFile
     ∧ configs cs' = configs two_records ++ [third_record]
     ∧ InitConfigStore (filePath two_records) fs' false
       = ({| configs := []; filePath := filePath two_records |}, Some ErrUnmarshal)).
Proof.
  assert (Hd : on_disk two_records_fs two_records) by reflexivity.
  split; [exact Hd|].
  exact (proj1 (truncating_failure_loses_the_file two_records two_records_fs
                  third_record Hd)).
Defined.

Lemma out_of_range (index : Z) (n : nat) :
  (index < 0 ∨ Z.of_nat n ≤ index)%Z →
  ((index <? 0) || (index >=? Z.of_nat n))%Z = true.
Proof. intros H. apply orb_true_iff. lia. Qed.

(** X14. An index below 0 or not below the length is refused by
    [UpdateConfig] and [DeleteConfig] with the not-found error; the list and
    the file stay as they are and no save is tried, whatever would have gone
    wrong with it. *)
Theorem out_of_range_index_changes_nothing
    (cs : ConfigStore) (fs : gmap string file) (index : Z) (config : AuthConfig)
    (mishap : option fault) :
  (index < 0 ∨ Z.of_nat (length (configs cs)) ≤ index)%Z →
  UpdateConfig cs fs index config mishap = (cs, fs, Some ErrNotExist)
  ∧ DeleteConfig cs fs index mishap = (cs, fs, Some ErrNotExist).
Proof.
  intros Hidx. unfold UpdateConfig, DeleteConfig.
  by rewrite out_of_range.
Qed.

Lemma out_of_range_index_example :
  (2 < 0 ∨ Z.of_nat (length (configs two_records)) ≤ 2)%Z
  ∧ DeleteConfig two_records two_records_fs 2 (Some WriteFails)
    = (two_records, two_records_fs, Some ErrNotExist).
Proof.
  assert (Hi : (2 < 0 ∨ Z.of_nat (length (configs two_records)) ≤ 2)%Z)
    by (right; simpl; lia).
  split; [exact Hi|].
  exact (proj2 (out_of_range_index_changes_nothing two_records two_records_fs 2
                  third_record (Some WriteFails) Hi)).
Defined.

(** X15. [UpdateConfig] within bounds replaces exactly one record: the
    list keeps its length, the record at the index is the new one and every
    other position is as before, whether or not the save succeeds. *)
Theorem update_replaces_one_record
    (cs : ConfigStore) (fs : gmap string file) (index : Z) (config : AuthConfig)
    (mishap : option fault) :
  (0 ≤ index < Z.of_nat (length (configs cs)))%Z →
  let '(cs', _, _) := UpdateConfig cs fs index config mishap in
  length (configs cs') = length (configs cs)
  ∧ configs cs' !! Z.to_nat index = Some config
  ∧ (∀ i, i ≠ Z.to_nat index → configs cs' !! i = configs cs !! i)
  ∧ filePath cs' = filePath cs.
Proof.
  intros Hidx. unfold UpdateConfig. rewrite in_range by done.
  destruct (save _ fs mishap) as [fs' err] eqn:Hs. simpl. split_and!.
  - apply length_insert.
  - apply list_lookup_insert_eq. lia.
  - intros i Hi. by apply list_lookup_insert_ne.
  - done.
Qed.

Lemma update_replaces_one_record_example :
  (0 ≤ 0 < Z.of_nat (length (configs two_records)))%Z
  ∧ (let '(cs', _, _) :=
       UpdateConfig two_records two_records_fs 0 third_record (Some OpenFails) in
     configs cs' !! 0%nat = Some third_record).
Proof.
  assert (Hi : (0 ≤ 0 < Z.of_nat (length (configs two_records)))%Z)
    by (simpl; lia).
  split; [exact Hi|].
  pose proof (update_replaces_one_record two_records two_records_fs 0 third_record
                (Some OpenFails) Hi) as H.
  destruct (UpdateConfig two_records two_records_fs 0 third_record (Some OpenFails))
    as [[cs' fs'] err].
  exact (proj1 (proj2 H)).
Defined.

(** X16. [DeleteConfig] within bounds removes exactly the record at the
    index: the list is one shorter, the records before the index stay where
    they are and each later record moves down by one. *)
Theorem delete_removes_one_record
    (cs : ConfigStore) (fs : gmap string file) (index : Z)
    (mishap : option fault) :
  (0 ≤ index < Z.of_nat (length (configs cs)))%Z →
  let '(cs', _, _) := DeleteConfig cs fs index mishap in
  S (length (configs cs')) = length (configs cs)
  ∧ (∀ i, (i < Z.to_nat index)%nat → configs cs' !! i = configs cs !! i)
  ∧ (∀ i, (Z.to_nat index ≤ i)%nat → configs cs' !! i = configs cs !! S i).
Proof.
  intros Hidx. unfold DeleteConfig. rewrite in_range by done.
  replace (Z.to_nat (index + 1)) with (S (Z.to_nat index)) by lia.
  destruct (save _ fs mishap) as [fs' err] eqn:Hs. simpl. split_and!.
  - rewrite length_app, length_take, length_drop. lia.
  - intros i Hi. rewrite lookup_app_l by (rewrite length_take; lia).
    by apply lookup_take_lt.
  - intros i Hi. rewrite lookup_app_r by (rewrite length_take; lia).
    rewrite length_take, lookup_drop. f_equal. lia.
Qed.

Lemma delete_removes_one_record_example :
  (0 ≤ 0 < Z.of_nat (length (configs two_records)))%Z
  ∧ (let '(cs', _, _) := DeleteConfig two_records two_records_fs 0 None in
     S (length (configs cs')) = 2%nat).
Proof.
  assert (Hi : (0 ≤ 0 < Z.of_nat (length (configs two_records)))%Z)
    by (simpl; lia).
  split; [exact Hi|].
  pose proof (delete_removes_one_record two_records two_records_fs 0 None Hi) as H.
  destruct (DeleteConfig two_records two_records_fs 0 None) as [[cs' fs'] err].
  exact (proj1 H).
Defined.


End StoreOperations.

(** ** The handlers of the credential store *)

Section StoreHandlers.
Import Auth Server.

Lemma validateConfig_well_formed config c :
  validateConfig config = Some c → well_formed_record c.
Proof.
  unfold validateConfig. case_bool_decide as Hr; [done|].
  fold (default_social config).
  destruct (default_social_fields config) as (Er & Ei & Es & _ & _).
  case_bool_decide as Hi; simpl.
  - destruct (bool_decide (ClientID _ = "")) eqn:E1; [done|].
    destruct (bool_decide (ClientSecret _ = "")) eqn:E2; [done|].
    apply bool_decide_eq_false in E1, E2. simpl. intros [= <-].
    split_and!; [by rewrite Er|by rewrite Hi|done].
  - intros [= <-]. split_and!; [by rewrite Er| |done].
    unfold default_social. by case_bool_decide.
Qed.

(** X18. The handlers keep the store well formed: if every record of the
    store has a refresh token, an auth type and, for IdC, both client
    credentials, then so has every record after [handleAddConfig],
    [handleUpdateConfig] or [handleDeleteConfig], whatever the request and
    whether or not the save succeeds. *)
Theorem handlers_keep_store_well_formed
    (configStore : option ConfigStore) (fs : gmap string file)
    (indexStr : string) (bound : option AuthConfig) (mishap : option fault) :
  store_well_formed configStore →
  store_well_formed (handleAddConfig configStore fs bound mishap).1.1
  ∧ store_well_formed (handleUpdateConfig configStore fs indexStr bound mishap).1.1
  ∧ store_well_formed (handleDeleteConfig configStore fs indexStr mishap).1.1.
Proof.
  destruct configStore as [cs|]; [|done]. simpl. intros Hwf. split_and!.
  - unfold handleAddConfig. destruct bound as [config|]; [|done].
    destruct (validateConfig config) as [c|] eqn:Hv; [|done].
    apply validateConfig_well_formed in Hv.
    unfold AddConfig. destruct (save _ fs mishap) as [fs' [e|]]; simpl;
      apply Forall_app; split; try done; by constructor.
  - unfold handleUpdateConfig. destruct (Strconv.Atoi indexStr) as [index|]; [|done].
    destruct bound as [config|]; [|done].
    destruct (validateConfig config) as [c|] eqn:Hv; [|done].
    apply validateConfig_well_formed in Hv.
    unfold UpdateConfig. destruct (_ || _)%Z; [done|].
    destruct (save _ fs mishap) as [fs' [e|]]; simpl;
      [destruct (IsNotExist e)|]; simpl; by apply Forall_insert.
  - unfold handleDeleteConfig. destruct (Strconv.Atoi indexStr) as [index|]; [|done].
    unfold DeleteConfig. destruct (_ || _)%Z; [done|].
    destruct (save _ fs mishap) as [fs' [e|]]; simpl;
      [destruct (IsNotExist e)|]; simpl;
      (apply Forall_app; split; [by apply Forall_take|by apply Forall_drop]).
Qed.

Lemma handlers_keep_store_well_formed_example :
  store_well_formed (Some two_records)
  ∧ store_well_formed
      (handleAddConfig (Some two_records) two_records_fs (Some one_social_record)
         (Some WriteFails)).1.1.
Proof.
  assert (Hwf : store_well_formed (Some two_records)).
  { simpl. repeat constructor; simpl; try discriminate; by intros _. }
  split; [exact Hwf|].
  exact (proj1 (handlers_keep_store_well_formed (Some two_records) two_records_fs
                  "0" (Some one_social_record) (Some WriteFails) Hwf)).
Defined.

(** X19. Of a well-formed list, such as the handlers keep, the runtime
    loader drops exactly the disabled records and returns the others
    unchanged and in order. *)
Theorem processConfigs_of_well_formed (configs : list AuthConfig) :
  Forall well_formed_record configs →
  processConfigs configs = filter (λ c, Disabled c = false) configs.
Proof.
  rewrite processConfigs_map_filter.
  induction 1 as [|c cs Hc _ IH]; [done|].
  destruct (Disabled c) eqn:Hd.
  - rewrite (filter_cons_False (λ c, Disabled c = false)) by (by rewrite Hd).
    rewrite filter_cons_False; [done|]. intros (_ & _ & ?). congruence.
  - destruct (ready_is_usable c (conj Hc Hd)) as [Hu He].
    rewrite (filter_cons_True (λ c, Disabled c = false)) by done.
    rewrite filter_cons_True by done. by rewrite fmap_cons, He, IH.
Qed.

Lemma processConfigs_of_well_formed_example :
  Forall well_formed_record (configs two_records)
  ∧ processConfigs (configs two_records) = configs two_records.
Proof.
  assert (Hwf : Forall well_formed_record (configs two_records)).
  { simpl. repeat constructor; simpl; try discriminate; by intros _. }
  split; [exact Hwf|].
  rewrite (processConfigs_of_well_formed (configs two_records) Hwf). reflexivity.
Defined.

Lemma save_answer cs fs mishap :
  let '(fs', err) := save cs fs mishap in
  (err = None → on_disk fs' cs) ∧ (∀ e, err = Some e → IsNotExist e = false).
Proof.
  destruct mishap as [[]|]; simpl; split; try done; try (by intros e [= <-]).
  intros _. unfold on_disk. by rewrite lookup_insert_eq.
Qed.

(** X20. The status of an answer tells the state left behind.  Each of the
    three handlers answers 200, 400, 404 or 500; after a 400 the store and
    the file are untouched; after a 200 the file holds the list that is in
    memory; without a store the answer is 500.  An index that is no number
    gets 400, and a number outside the list gets 404 with nothing changed. *)
Theorem handler_status_tells_state
    (configStore : option ConfigStore) (fs : gmap string file)
    (indexStr : string) (bound : option AuthConfig) (mishap : option fault) :
  answer_tells_state configStore fs (handleAddConfig configStore fs bound mishap)
  ∧ answer_tells_state configStore fs
      (handleUpdateConfig configStore fs indexStr bound mishap)
  ∧ answer_tells_state configStore fs
      (handleDeleteConfig configStore fs indexStr mishap)
  ∧ (∀ cs, configStore = Some cs → Strconv.Atoi indexStr = None →
       handleUpdateConfig configStore fs indexStr bound mishap = (Some cs, fs, 400%Z)
       ∧ handleDeleteConfig configStore fs indexStr mishap = (Some cs, fs, 400%Z))
  ∧ (∀ cs index, configStore = Some cs → Strconv.Atoi indexStr = Some index →
       (index < 0 ∨ Z.of_nat (length (configs cs)) ≤ index)%Z →
       handleDeleteConfig configStore fs indexStr mishap
       = (Some cs, fs, StatusNotFound)).
Proof.
  split_and!.
  - destruct configStore as [cs|]; [|by split_and!; auto].
    unfold handleAddConfig.
    destruct bound as [config|]; [|by split_and!; auto].
    destruct (validateConfig config) as [c|]; [|by split_and!; auto].
    unfold AddConfig. pose proof (save_answer (withConfigs cs (configs cs ++ [c])) fs mishap) as Hs.
    destruct (save _ fs mishap) as [fs' [e|]]; simpl.
    + split_and!; auto; done.
    + split_and!; auto; try done. intros _. eexists. split; [done|]. by apply Hs.
  - destruct configStore as [cs|]; [|by split_and!; auto].
    unfold handleUpdateConfig.
    destruct (Strconv.Atoi indexStr) as [index|]; [|by split_and!; auto].
    destruct bound as [config|]; [|by split_and!; auto].
    destruct (validateConfig config) as [c|]; [|by split_and!; auto].
    unfold UpdateConfig. destruct (_ || _)%Z; simpl; [by split_and!; auto|].
    pose proof (save_answer (withConfigs cs (<[Z.to_nat index:=c]> (configs cs))) fs mishap) as Hs.
    destruct (save _ fs mishap) as [fs' [e|]]; simpl.
    + rewrite (proj2 Hs e eq_refl). split_and!; auto; done.
    + split_and!; auto; try done. intros _. eexists. split; [done|]. by apply Hs.
  - destruct configStore as [cs|]; [|by split_and!; auto].
    unfold handleDeleteConfig.
    destruct (Strconv.Atoi indexStr) as [index|]; [|by split_and!; auto].
    unfold DeleteConfig. destruct (_ || _)%Z; simpl; [by split_and!; auto|].
    match goal with |- context [save ?c fs mishap] =>
      pose proof (save_answer c fs mishap) as Hs;
      destruct (save c fs mishap) as [fs' [e|]] end; simpl.
    + rewrite (proj2 Hs e eq_refl). split_and!; auto; done.
    + split_and!; auto; try done. intros _. eexists. split; [done|]. by apply Hs.
  - intros cs -> Ha. unfold handleUpdateConfig, handleDeleteConfig. by rewrite Ha.
  - intros cs index -> Ha Hout. unfold handleDeleteConfig, DeleteConfig.
    by rewrite Ha, out_of_range.
Qed.

End StoreHandlers.

(** ** Batch import *)

Section ImportAccounts.
Import Auth Server.

Variable RefreshIdCToken : nat → AuthConfig → option Types.TokenInfo.
Variable RefreshSocialToken : nat → string → option Types.TokenInfo.
Variable usageExchange : nat → Types.TokenInfo → exchange.
Variable saveMishap : nat → option fault.
Variable SafeUnmarshal_map : string → option (gmap string json).
Variable SafeUnmarshal_UsageLimits : string → option Types.UsageLimits.

#[local] Abbreviation importOne :=
  (importAccount RefreshIdCToken RefreshSocialToken usageExchange saveMishap
     SafeUnmarshal_map SafeUnmarshal_UsageLimits).
#[local] Abbreviation importAll :=
  (importAccounts RefreshIdCToken RefreshSocialToken usageExchange saveMishap
     SafeUnmarshal_map SafeUnmarshal_UsageLimits).
#[local] Abbreviation handleImport :=
  (handleImportConfig RefreshIdCToken RefreshSocialToken usageExchange saveMishap
     SafeUnmarshal_map SafeUnmarshal_UsageLimits).

#[local] Abbreviation one_import := (one_import saveMishap).

Lemma imported_record_ready (input : ImportAccountInput) (refreshed : string) :
  Import_RefreshToken input ≠ "" →
  let isIdC :=
    negb (bool_decide (Import_ClientID input = ""))
    && negb (bool_decide (Import_ClientSecret input = "")) in
  let authConfig :=
    if isIdC then
      {| AuthType := AuthMethodIdC; RefreshToken := Import_RefreshToken input;
         ClientID := Import_ClientID input;
         ClientSecret := Import_ClientSecret input; Disabled := false |}
    else
      {| AuthType := AuthMethodSocial; RefreshToken := Import_RefreshToken input;
         ClientID := ""; ClientSecret := ""; Disabled := false |} in
  ready_record
    (if bool_decide (refreshed ≠ "") then withRefreshToken authConfig refreshed
     else authConfig).
Proof.
  intros Hr isIdC authConfig.
  assert (Hbase : ready_record authConfig).
  { subst authConfig isIdC.
    destruct (bool_decide (Import_ClientID input = "")) eqn:E1;
      destruct (bool_decide (Import_ClientSecret input = "")) eqn:E2; simpl;
      (split; [split_and!|]); simpl; try done.
    apply bool_decide_eq_false in E1, E2. done. }
  case_bool_decide as Hn; [|exact Hbase].
  destruct Hbase as [(_ & Ha & Hidc) Hd]. by split; [split_and!|].
Qed.

Lemma importAccount_spec i input cs fs : one_import i cs fs (importOne i input cs fs).
Proof.
  unfold importAccount.
  case_bool_decide as Hr; [simpl; split_and!; auto; by split|].
  destruct (if _ && _ then RefreshIdCToken _ _ else RefreshSocialToken _ _)
    as [tokenInfo|]; [|simpl; split_and!; auto; by split].
  case_bool_decide; [simpl; split_and!; auto; by split|].
  destruct (Error _); [simpl; split_and!; auto; by split|].
  pose proof (imported_record_ready input (Types.Info_RefreshToken tokenInfo) Hr)
    as Hready. simpl in Hready.
  unfold AddConfig.
  match goal with |- context [save ?c fs (saveMishap i)] =>
    pose proof (save_answer c fs (saveMishap i)) as Hs;
    destruct (save c fs (saveMishap i)) as [fs' [e|]] eqn:Hsave end; simpl.
  - split_and!; [done|by split|]. right. eexists. split_and!; [exact Hready|done|].
    intros Hm. rewrite Hm in Hsave. done.
  - split_and!; [done|by split|]. right. eexists. split_and!; [exact Hready|done|].
    intros _. split; [done|]. by apply Hs.
Qed.

(** The loop, from any turn and any accumulators. *)
Lemma importAccounts_spec inputs :
  ∀ i cs fs results successCount,
    let '(cs', fs', results', successCount') :=
      importAll i inputs cs fs results successCount in
    ∃ news added,
      results' = results ++ news
      ∧ length news = length inputs
      ∧ results_indexed_from i news
      ∧ successCount' = (successCount + Z.of_nat (count_success news))%Z
      ∧ cs' = withConfigs cs (configs cs ++ added)
      ∧ Forall ready_record added
      ∧ (count_success news ≤ length added)%nat
      ∧ ((∀ j, saveMishap j = None) →
         length added = count_success news
         ∧ (added = [] → fs' = fs)
         ∧ (on_disk fs cs ∨ added ≠ [] → on_disk fs' cs')).
Proof.
  induction inputs as [|input rest IH]; intros i cs fs results sc.
  - simpl. exists [], []. rewrite !app_nil_r.
    split_and!; try done; try (by destruct cs); try (by intros k r Hk).
    + unfold count_success. simpl. lia.
    + intros _. split_and!; try done. by intros [H|H].
  - simpl. pose proof (importAccount_spec i input cs fs) as H1.
    destruct (importOne i input cs fs) as [[[cs1 fs1] r] ok].
    destruct H1 as (Hidx & Hok & Hstep).
    specialize (IH (S i) cs1 fs1 (results ++ [r])
                  (if ok then (sc + 1)%Z else sc)).
    destruct (importAll (S i) rest cs1 fs1 _ _) as [[[cs' fs'] results'] sc'].
    destruct IH as (news & added & -> & Hlen & Hind & -> & -> & Hready & Hcount & Hgood).
    assert (Hcs : count_success (r :: news)
                  = ((if ok then 1 else 0) + count_success news)%nat).
    { unfold count_success. destruct ok.
      - rewrite filter_cons_True by (by apply Hok). done.
      - rewrite filter_cons_False; [done|]. intros Hs. apply Hok in Hs. done. }
    assert (Hind' : results_indexed_from i (r :: news)).
    { intros [|k] r' Hk; simpl in Hk.
      - injection Hk as <-. by rewrite Nat.add_0_r.
      - rewrite (Hind k r' Hk). f_equal. lia. }
    destruct Hstep as [(-> & -> & ->)|(c & Hc & -> & Hsave)].
    + exists (r :: news), added. rewrite <- app_assoc. simpl.
      split_and!; try done; rewrite ?Hcs; try (simpl; lia); try exact Hgood.
    + exists (r :: news), (c :: added). rewrite <- app_assoc. simpl.
      rewrite <- app_assoc. simpl.
      split_and!; try done.
      * by rewrite Hlen.
      * rewrite Hcs. destruct ok; lia.
      * by constructor.
      * rewrite Hcs. destruct ok; simpl; lia.
      * intros Hm. destruct (Hsave (Hm i)) as [-> Hdisk].
        destruct (Hgood Hm) as (Hl & Hfs & Hd). rewrite Hcs. split_and!.
        -- simpl. lia.
        -- done.
        -- intros _.
           assert (on_disk fs1 (withConfigs cs (configs cs ++ [c])) ∨ added ≠ []) as Hor
             by (by left).
           apply Hd in Hor. unfold on_disk, withConfigs in *. simpl in *.
           by rewrite <- app_assoc in Hor.
Qed.

(** X21. A batch import with at least one account answers with one
    result per account, in order, each carrying its position as its index;
    the success count is the number of results marked success, and the
    failed count is the rest. *)
Theorem import_reports_every_account
    (cs : ConfigStore) (fs : gmap string file) (inputs : list ImportAccountInput) :
  inputs ≠ [] →
  ∃ cs' fs' success results,
    handleImport (Some cs) fs (Some inputs)
    = (Some cs', fs',
       ImportDone (Z.of_nat (length inputs)) success
         (Z.of_nat (length inputs) - success) results)
    ∧ length results = length inputs
    ∧ results_indexed_from 0 results
    ∧ success = Z.of_nat (count_success results)
    ∧ (0 ≤ success ≤ Z.of_nat (length inputs))%Z.
Proof.
  intros Hne.
  assert ((length inputs =? 0)%nat = false) as Hlen0 by (by destruct inputs).
  unfold handleImportConfig. rewrite Hlen0.
  pose proof (importAccounts_spec inputs 0 cs fs [] 0%Z) as H.
  destruct (importAll 0 inputs cs fs [] 0%Z) as [[[cs' fs'] results] sc].
  destruct H as (news & added & -> & Hlen & Hind & -> & _ & _ & _ & _).
  exists cs', fs', (Z.of_nat (count_success news)), news. simpl.
  split_and!; try done.
  - lia.
  - unfold count_success. pose proof (length_filter (λ r, Result_Status r = "success") news).
    lia.
Qed.


End ImportAccounts.

Section ImportExamples.
Import Auth Server.

Lemma import_two_accounts_example :
  two_imports ≠ []
  ∧ ∃ cs' fs' success results,
      handleImportConfig (λ _ _, None)
        (λ _ _, Some {| Types.Info_AccessToken := "at"; Types.Info_RefreshToken := "" |})
        (λ _ _, Response 200 "{}") (λ _, None) (λ _, None)
        (λ _, Some base_only_limits)
        (Some two_records) two_records_fs (Some two_imports)
      = (Some cs', fs',
         ImportDone (Z.of_nat (length two_imports)) success
           (Z.of_nat (length two_imports) - success) results)
      ∧ length results = length two_imports
      ∧ results_indexed_from 0 results
      ∧ success = Z.of_nat (count_success results)
      ∧ (0 ≤ success ≤ Z.of_nat (length two_imports))%Z.
Proof.
  split; [discriminate|].
  apply import_reports_every_account. discriminate.
Defined.

Example import_two_accounts_outcome :
  (handleImportConfig (λ _ _, None)
     (λ _ _, Some {| Types.Info_AccessToken := "at"; Types.Info_RefreshToken := "" |})
     (λ _ _, Response 200 "{}") (λ _, None) (λ _, None)
     (λ _, Some base_only_limits)
     (Some two_records) two_records_fs (Some two_imports)).2
  = ImportDone 2 1 1
      [ {| Result_Index := 0; Result_Email := ""; Result_Status := "error" |};
        {| Result_Index := 1; Result_Email := "dev@example.com";
           Result_Status := "success" |} ].
Proof. vm_compute. reflexivity. Qed.

End ImportExamples.

(** ** The token list *)

Section TokenList.
Import Auth Server.
#[local] Open Scope Q_scope.

Variable RefreshIdCToken : nat → AuthConfig → option Types.TokenInfo.
Variable RefreshSocialToken : nat → string → option Types.TokenInfo.
Variable IsExpired : nat → Types.TokenInfo → bool.
Variable usageExchange : nat → Types.TokenInfo → exchange.
Variable SafeUnmarshal_map : string → option (gmap string json).
Variable SafeUnmarshal_UsageLimits : string → option Types.UsageLimits.

#[local] Abbreviation entryOf :=
  (tokenData RefreshIdCToken RefreshSocialToken IsExpired usageExchange
     SafeUnmarshal_map SafeUnmarshal_UsageLimits).
#[local] Abbreviation entriesOf :=
  (tokenEntries RefreshIdCToken RefreshSocialToken IsExpired usageExchange
     SafeUnmarshal_map SafeUnmarshal_UsageLimits).
#[local] Abbreviation tokenPool :=
  (handleTokenPoolAPI RefreshIdCToken RefreshSocialToken IsExpired usageExchange
     SafeUnmarshal_map SafeUnmarshal_UsageLimits).

Lemma tokenData_spec i authConfig :
  let '(e, active) := entryOf i authConfig in
  Token_index e = Z.of_nat i
  ∧ (active = true ↔ Token_status e = Types.AccountStatusActive)
  ∧ listed_status (Token_status e)
  ∧ 0 <= Token_remaining_usage e
  ∧ (Disabled authConfig = false → Token_status e ≠ Types.AccountStatusDisabled).
Proof.
  unfold tokenData, listed_status.
  destruct (Disabled authConfig).
  { simpl. split_and!; try done; try (by split); try set_solver; apply Qle_refl. }
  destruct (refreshSingleTokenByConfig _ _ _ _) as [tokenInfo|].
  2: { simpl. split_and!; try done; try (by split); try set_solver; apply Qle_refl. }
  destruct (IsExpired i tokenInfo).
  { simpl. split_and!; try done; try (by split); try set_solver; apply Qle_refl. }
  pose proof (probe_status_cases SafeUnmarshal_map SafeUnmarshal_UsageLimits
                (usageExchange i tokenInfo)) as Hs.
  pose proof (probe_available_nonneg SafeUnmarshal_map SafeUnmarshal_UsageLimits
                (usageExchange i tokenInfo)) as Ha.
  destruct Hs as [Hs|[Hs|[Hs|Hs]]]; rewrite Hs; simpl;
    (split_and!; try done; try (by split); try set_solver; exact Ha).
Qed.

Lemma tokenEntries_spec configs :
  ∀ i tokenList activeCount,
    let '(tokenList', activeCount') := entriesOf i configs tokenList activeCount in
    ∃ news,
      tokenList' = tokenList ++ news
      ∧ length news = length configs
      ∧ entries_indexed_from i news
      ∧ activeCount' = (activeCount + Z.of_nat (count_active news))%Z
      ∧ Forall (λ e, listed_status (Token_status e) ∧ 0 <= Token_remaining_usage e) news
      ∧ (Forall (λ c, Disabled c = false) configs →
         Forall (λ e, Token_status e ≠ Types.AccountStatusDisabled) news).
Proof.
  induction configs as [|c rest IH]; intros i tokenList activeCount.
  - simpl. exists []. rewrite app_nil_r.
    split_and!; try done; try (by intros k e Hk).
    unfold count_active. simpl. lia.
  - simpl. pose proof (tokenData_spec i c) as H1.
    destruct (entryOf i c) as [e active].
    destruct H1 as (Hidx & Hact & Hst & Hrem & Hdis).
    specialize (IH (S i) (tokenList ++ [e])
                  (if active then (activeCount + 1)%Z else activeCount)).
    destruct (entriesOf (S i) rest _ _) as [tokenList' activeCount'].
    destruct IH as (news & -> & Hlen & Hind & -> & Hall & Hnd).
    exists (e :: news). rewrite <- app_assoc. simpl. split_and!; try done.
    + by rewrite Hlen.
    + intros [|k] e' Hk; simpl in Hk.
      * injection Hk as <-. by rewrite Nat.add_0_r.
      * rewrite (Hind k e' Hk). f_equal. lia.
    + unfold count_active in *. destruct active.
      * rewrite filter_cons_True by (by apply Hact). simpl. lia.
      * rewrite filter_cons_False; [lia|]. intros Hs. apply Hact in Hs. done.
    + by constructor.
    + intros Hc. inversion_clear Hc as [|? ? Hc1 Hc2]. constructor; auto.
Qed.

(** X23. The token list has one entry per credential, in order, each
    carrying its position as its index; the number of active tokens it
    reports is the number of entries whose status is active; every entry has
    one of the six account statuses and a remaining usage that is not
    negative. *)
Theorem token_list_has_one_entry_per_credential (configs : list AuthConfig) :
  ∃ active tokens,
    tokenPool (inl configs)
    = PoolList (Z.of_nat (length configs)) active tokens
        (Z.of_nat (length configs)) active
    ∧ length tokens = length configs
    ∧ entries_indexed_from 0 tokens
    ∧ active = Z.of_nat (count_active tokens)
    ∧ Forall (λ e, listed_status (Token_status e) ∧ 0 <= Token_remaining_usage e)
        tokens.
Proof.
  unfold handleTokenPoolAPI.
  destruct configs as [|c rest] eqn:Hc.
  - exists 0%Z, []. simpl. split_and!; try done.
  - rewrite <- Hc. replace (length configs =? 0)%nat with false by (by rewrite Hc).
    pose proof (tokenEntries_spec configs 0 [] 0%Z) as H.
    destruct (entriesOf 0 configs [] 0%Z) as [tokens active].
    destruct H as (news & -> & Hlen & Hind & -> & Hall & _).
    exists (Z.of_nat (count_active news)), news. simpl. rewrite Hlen.
    split_and!; try done.
Qed.

Variable Unmarshal_configs : string → option (list AuthConfig).
Variable Unmarshal_config : string → option AuthConfig.

(** X24. Fed with what [GetConfigs] loads, the token list is either
    refused with a 500, when loading failed, or has at least one entry and no
    entry with the status disabled: the loader has already dropped the
    disabled credentials, so the list never shows them. *)
Theorem token_list_never_shows_disabled (os : OS) :
  match tokenPool (Auth.GetConfigs Unmarshal_configs Unmarshal_config os) with
  | PoolError status =>
      status = 500%Z
      ∧ ∃ e, Auth.GetConfigs Unmarshal_configs Unmarshal_config os = inr e
  | PoolList total _ tokens _ _ =>
      (1 ≤ total)%Z
      ∧ total = Z.of_nat (length tokens)
      ∧ Forall (λ e, Token_status e ≠ Types.AccountStatusDisabled) tokens
  end.
Proof.
  unfold Auth.GetConfigs.
  destruct (loadConfigs Unmarshal_configs Unmarshal_config os) as [valid|e] eqn:Hload.
  2: { simpl. split; [done|]. by exists e. }
  apply loadConfigs_inl in Hload as (configs & -> & Hne).
  assert (Forall (λ c, Disabled c = false) (processConfigs configs)) as Hen.
  { rewrite processConfigs_map_filter.
    eapply Forall_impl; [apply usable_records_ready|]. by intros c [_ ?]. }
  unfold handleTokenPoolAPI.
  destruct (processConfigs configs) as [|c rest] eqn:Hc; [done|].
  rewrite <- Hc in *.
  replace (length (processConfigs configs) =? 0)%nat with false by (by rewrite Hc).
  pose proof (tokenEntries_spec (processConfigs configs) 0 [] 0%Z) as H.
  destruct (entriesOf 0 (processConfigs configs) [] 0%Z) as [tokens active].
  destruct H as (news & -> & Hlen & _ & _ & _ & Hnd). simpl.
  split_and!; [|done|by apply Hnd].
  rewrite Hlen, Hc. simpl. lia.
Qed.

Lemma tokenData_shown i authConfig : shown_as_listed (entryOf i authConfig).1.
Proof.
  unfold tokenData.
  destruct (Disabled authConfig); [by intros []|].
  destruct (refreshSingleTokenByConfig _ _ _ _) as [tokenInfo|]; [|by intros []].
  destruct (IsExpired i tokenInfo); [by intros []|].
  pose proof (probe_status_cases SafeUnmarshal_map SafeUnmarshal_UsageLimits
                (usageExchange i tokenInfo)) as Hs.
  destruct Hs as [Hs|[Hs|[Hs|Hs]]]; rewrite Hs; by intros [].
Qed.

Lemma tokenEntries_shown configs :
  ∀ i tokenList activeCount,
    Forall shown_as_listed tokenList →
    Forall shown_as_listed (entriesOf i configs tokenList activeCount).1.
Proof.
  induction configs as [|c rest IH]; intros i tokenList activeCount Hall; [done|].
  simpl. pose proof (tokenData_shown i c) as H1.
  destruct (entryOf i c) as [e active]. apply IH.
  apply Forall_app. split; [done|]. by constructor.
Qed.

(** X30. The dashboard script agrees with the server on every entry of the
    token list: it gives the entry the style class named after its status,
    never falling back to its own guess from expiry and remaining usage, and
    the status text it shows is the server's, which is also the text its own
    table has for that status when the server's text is missing. *)
Theorem dashboard_agrees_with_token_list (configs : list AuthConfig) :
  ∃ active tokens,
    tokenPool (inl configs)
    = PoolList (Z.of_nat (length tokens)) active tokens
        (Z.of_nat (length configs)) active
    ∧ Forall shown_as_listed tokens.
Proof.
  unfold handleTokenPoolAPI.
  destruct configs as [|c rest] eqn:Hc.
  - by exists 0%Z, [].
  - rewrite <- Hc. replace (length configs =? 0)%nat with false by (by rewrite Hc).
    pose proof (tokenEntries_shown configs 0 [] 0%Z (Forall_nil_2 _)) as H.
    destruct (entriesOf 0 configs [] 0%Z) as [tokens active].
    by exists active, tokens.
Qed.

End TokenList.

(** ** The content of the non-streaming response *)

Section NonStreamContent.
Import Types Server.

Variable EstimateTokens : CountTokensRequest → Z.
Variable EstimateTextTokens : string → Z.
Variable EstimateToolUseTokens : string → gomap → Z.
Variable filterSupportedTools : list AnthropicTool → list AnthropicTool.
Variable NewStopReasonManager : AnthropicRequest → StopReasonManager.

#[local] Abbreviation respond :=
  (handleNonStreamRequest EstimateTokens EstimateTextTokens EstimateToolUseTokens
     filterSupportedTools NewStopReasonManager).

Lemma toolUseBlock_fields tool :
  toolUseBlock tool !! "type" = Some (JStr "tool_use")
  ∧ toolUseBlock tool !! "id" = Some (JStr (ID tool))
  ∧ toolUseBlock tool !! "name" = Some (JStr (Name tool))
  ∧ toolUseBlock tool !! "input" = Some (JObj (default ∅ (Arguments tool)))
  ∧ toolUseBlock tool !! "text" = None.
Proof. unfold toolUseBlock. by destruct (Arguments tool). Qed.

(** X25. The content of a non-streaming response is the text block, when
    the text is not empty, followed by one tool-use block per tool, active
    tools first and in order.  So there is never a text block with empty
    text, a text block can only be the first block, and every tool-use block
    carries the id and the name of its tool and an object as input, never
    null. *)
Theorem nonstream_content_is_text_then_tools
    (anthropicReq : AnthropicRequest) (textAgg : string)
    (activeTools completedTools : list ToolExecution) :
  ∃ resp,
    respond anthropicReq (Parsed textAgg activeTools completedTools)
    = MessageJSON 200 resp
    ∧ content resp
      = (if decide (textAgg = "") then [] else [textBlock textAgg])
        ++ (toolUseBlock <$> (activeTools ++ completedTools))
    ∧ (∀ k block, content resp !! k = Some block → is_text_block block →
         k = 0%nat ∧ textAgg ≠ "" ∧ block !! "text" = Some (JStr textAgg))
    ∧ (∀ block, block ∈ content resp → is_tool_use block →
         ∃ tool, tool ∈ activeTools ++ completedTools
                 ∧ block !! "id" = Some (JStr (ID tool))
                 ∧ block !! "name" = Some (JStr (Name tool))
                 ∧ block !! "input" = Some (JObj (default ∅ (Arguments tool))))
    ∧ (∀ block, block ∈ content resp → is_text_block block ∨ is_tool_use block).
Proof.
  eexists. split; [reflexivity|]. simpl.
  set (tools := activeTools ++ completedTools).
  assert (Hc : (if bool_decide (textAgg ≠ "") then [textBlock textAgg] else [])
               ++ (toolUseBlock <$> tools)
               = (if decide (textAgg = "") then [] else [textBlock textAgg])
                 ++ (toolUseBlock <$> tools)).
  { destruct (decide (textAgg = "")) as [->|Hne]; [done|].
    by rewrite bool_decide_eq_true_2. }
  rewrite Hc. split_and!; [done| | |].
  - intros k block Hk Ht. destruct (decide (textAgg = "")) as [->|Hne]; simpl in Hk.
    + apply list_lookup_fmap_Some in Hk as (tool & -> & _).
      destruct (toolUseBlock_fields tool) as (Hty & _). unfold is_text_block in Ht.
      rewrite Hty in Ht. done.
    + destruct k as [|k]; simpl in Hk; [by injection Hk as <-|].
      apply list_lookup_fmap_Some in Hk as (tool & -> & _).
      destruct (toolUseBlock_fields tool) as (Hty & _). unfold is_text_block in Ht.
      rewrite Hty in Ht. done.
  - intros block Hin Ht. apply elem_of_app in Hin as [Hin|Hin].
    + destruct (decide (textAgg = "")); [by apply elem_of_nil in Hin|].
      apply list_elem_of_singleton in Hin as ->. discriminate Ht.
    + apply list_elem_of_fmap in Hin as (tool & -> & Hin).
      exists tool. destruct (toolUseBlock_fields tool) as (_ & ? & ? & ? & _). done.
  - intros block Hin. apply elem_of_app in Hin as [Hin|Hin].
    + destruct (decide (textAgg = "")); [by apply elem_of_nil in Hin|].
      apply list_elem_of_singleton in Hin as ->. by left.
    + apply list_elem_of_fmap in Hin as (tool & -> & Hin). right.
      by destruct (toolUseBlock_fields tool) as (? & _).
Qed.

End NonStreamContent.

(** ** Tool normalization, again *)

Section Normalization.
Import Types Server.

Lemma normalizeTool_settled tool toolMap :
  normalizeTool tool = Some toolMap → normalizeTool (JObj toolMap) = Some toolMap.
Proof.
  destruct tool as [| | | | |m]; try done. simpl.
  destruct (m !! "name") as [name|] eqn:Hn;
    destruct (m !! "description") as [description|] eqn:Hd;
    destruct (m !! "input_schema") as [inputSchema|] eqn:Hi;
    intros [= <-]; try done; by rewrite ?Hn, ?Hd, ?Hi.
Qed.

Lemma omap_normalizeTool_cons tool (rest : list json) :
  omap normalizeTool (tool :: rest)
  = match normalizeTool tool with
    | Some toolMap => toolMap :: omap normalizeTool rest
    | None => omap normalizeTool rest
    end.
Proof. done. Qed.

Lemma normalize_settled (toolsArray : list json) :
  omap normalizeTool (JObj <$> omap normalizeTool toolsArray)
  = omap normalizeTool toolsArray.
Proof.
  induction toolsArray as [|tool rest IH]; [done|].
  rewrite omap_normalizeTool_cons.
  destruct (normalizeTool tool) as [toolMap|] eqn:Ht; [|exact IH].
  rewrite fmap_cons, omap_normalizeTool_cons.
  by rewrite (normalizeTool_settled _ _ Ht), IH.
Qed.

(** X26. Normalizing the tools twice is the same as normalizing them once. *)
Theorem normalizeRawRequest_idempotent (rawReq : gmap string json) :
  normalizeRawRequest (normalizeRawRequest rawReq) = normalizeRawRequest rawReq.
Proof.
  destruct (rawReq !! "tools") as [[| | | |toolsArray|]|] eqn:Ht;
    try (unfold normalizeRawRequest; by rewrite !Ht).
  assert (normalizeRawRequest rawReq
          = <["tools" := JArr (JObj <$> omap normalizeTool toolsArray)]> rawReq) as Hn.
  { unfold normalizeRawRequest. by rewrite Ht, normalizeToolsArray_omap. }
  rewrite Hn. unfold normalizeRawRequest.
  rewrite lookup_insert_eq, normalizeToolsArray_omap. cbn [app].
  by rewrite normalize_settled, insert_insert_eq.
Qed.

Lemma length_normalized (toolsArray : list json) :
  (length (omap normalizeTool toolsArray) ≤ length toolsArray)%nat.
Proof.
  induction toolsArray as [|tool rest IH]; [done|].
  rewrite omap_normalizeTool_cons. destruct (normalizeTool tool); simpl; lia.
Qed.

(** X27. Tool normalization touches nothing but the [tools] entry: the
    request keeps its keys and every other value.  When [tools] is an array,
    it becomes an array of objects only, no longer than before and with the
    kept entries in their order. *)
Theorem normalizeRawRequest_touches_tools_only (rawReq : gmap string json) :
  dom (normalizeRawRequest rawReq) = dom rawReq
  ∧ (∀ key, key ≠ "tools" → normalizeRawRequest rawReq !! key = rawReq !! key)
  ∧ (∀ toolsArray,
       rawReq !! "tools" = Some (JArr toolsArray) →
       ∃ objects,
         normalizeRawRequest rawReq !! "tools" = Some (JArr (JObj <$> objects))
         ∧ objects = omap normalizeTool toolsArray
         ∧ (length objects ≤ length toolsArray)%nat).
Proof.
  unfold normalizeRawRequest.
  destruct (rawReq !! "tools") as [[| | | |toolsArray|]|] eqn:Ht;
    try (split_and!; [done|done|by intros ?]).
  rewrite normalizeToolsArray_omap. cbn [app]. split_and!.
  - rewrite dom_insert_L. apply elem_of_dom_2 in Ht.
    apply set_eq. intros k. rewrite elem_of_union, elem_of_singleton.
    split; [by intros [->|]|by right].
  - intros key Hk. by rewrite lookup_insert_ne.
  - intros ? [= <-]. eexists. rewrite lookup_insert_eq. split_and!; [done|done|].
    apply length_normalized.
Qed.

End Normalization.

(** ** What reaches the upstream handlers *)

Section Dispatch.
Import Types Server.

Variable SafeUnmarshal_map : string → option (gmap string json).
Variable SafeMarshal : gmap string json → option string.
Variable SafeUnmarshal_AnthropicRequest : string → option AnthropicRequest.
Variable GetMessageContent : json → option string.

#[local] Abbreviation serve :=
  (messagesHandler SafeUnmarshal_map SafeMarshal SafeUnmarshal_AnthropicRequest
     GetMessageContent).
#[local] Abbreviation parses_as :=
  (parses_as SafeUnmarshal_map SafeMarshal SafeUnmarshal_AnthropicRequest).

(** X28. Whatever the handler hands to the stream or the non-stream handler
    is the request parsed from the normalized body, with the caller's token;
    it has a last message whose text is neither blank nor the placeholder
    once trimmed, and it goes to the stream handler exactly when its stream
    flag is set. *)
Theorem dispatched_request_is_valid
    (token tokenOut : TokenWithUsage) (body : string) (req : AnthropicRequest)
    (streaming : bool) :
  serve (Some (token, body))
  = (if streaming then HandleStream req tokenOut else HandleNonStream req tokenOut) →
  tokenOut = token
  ∧ parses_as body req
  ∧ Stream req = streaming
  ∧ ∃ lastMsg text,
      last (Messages req) = Some lastMsg
      ∧ GetMessageContent (Content lastMsg) = Some text
      ∧ Strings.TrimSpace text ≠ ""
      ∧ Strings.TrimSpace text ≠ "answer for user question".
Proof.
  unfold messagesHandler. intros H.
  destruct (SafeUnmarshal_map body) as [rawReq|] eqn:Hraw;
    [|by destruct streaming].
  destruct (SafeMarshal (normalizeRawRequest rawReq)) as [normalizedBody|] eqn:Hm;
    [|by destruct streaming].
  destruct (SafeUnmarshal_AnthropicRequest normalizedBody) as [parsed|] eqn:Hreq;
    [|by destruct streaming].
  unfold validateAndDispatch in H.
  destruct (last (Messages parsed)) as [lastMsg|] eqn:Hlast; [|by destruct streaming].
  destruct (GetMessageContent (Content lastMsg)) as [text|] eqn:Htext;
    [|by destruct streaming].
  case_bool_decide as Hblank; [by destruct streaming|].
  case_bool_decide as Hsentinel; [by destruct streaming|]. simpl in H.
  assert (parsed = req ∧ token = tokenOut ∧ Stream parsed = streaming)
    as (-> & -> & Hs).
  { destruct (Stream parsed) eqn:Hsp, streaming; try discriminate H;
      injection H as -> ->; done. }
  split_and!; [done| |done|].
  - by exists rawReq, normalizedBody.
  - by exists lastMsg, text.
Qed.

End Dispatch.

Section DispatchExamples.
Import Types Server.

Lemma dispatched_request_example :
  messagesHandler (λ _, Some ∅) (λ _, Some "{}") (λ _, Some hello_request)
    string_content (Some (some_token, "{}"))
  = HandleStream hello_request some_token
  ∧ Stream hello_request = true
  ∧ ∃ lastMsg text,
      last (Messages hello_request) = Some lastMsg
      ∧ string_content (Content lastMsg) = Some text
      ∧ Strings.TrimSpace text ≠ ""
      ∧ Strings.TrimSpace text ≠ "answer for user question".
Proof.
  assert (H : messagesHandler (λ _, Some ∅) (λ _, Some "{}") (λ _, Some hello_request)
                string_content (Some (some_token, "{}"))
              = HandleStream hello_request some_token) by (vm_compute; reflexivity).
  split; [exact H|].
  destruct (dispatched_request_is_valid (λ _, Some ∅) (λ _, Some "{}")
              (λ _, Some hello_request) string_content
              some_token some_token "{}" hello_request true H)
    as (_ & _ & Hs & Hlast).
  split; [exact Hs|exact Hlast].
Defined.

End DispatchExamples.

(** ** Request headers kept for the log *)

Section Headers.
Import Server.

Variable GetHeader : string → string.

Lemma extractRelevantHeaders_fold (keys : list string) :
  ∀ (acc : gmap string string) (key : string),
    foldl (λ relevantHeaders key,
             let value := GetHeader key in
             if bool_decide (value ≠ "")
             then <[key := loggedHeader key value]> relevantHeaders
             else relevantHeaders) acc keys !! key
    = if bool_decide (key ∈ keys ∧ GetHeader key ≠ "")
      then Some (loggedHeader key (GetHeader key))
      else acc !! key.
Proof.
  induction keys as [|k keys IH]; intros acc key.
  - cbn [foldl]. case_bool_decide as H; [|done].
    destruct H as [H _]. by apply elem_of_nil in H.
  - cbn [foldl]. rewrite IH. cbv zeta.
    destruct (decide (key = k)) as [->|Hne];
      repeat case_bool_decide;
      rewrite ?lookup_insert_eq, ?lookup_insert_ne by done;
      try done; exfalso;
      repeat match goal with
             | H : _ ∧ _ |- _ => destruct H
             | H : _ ∈ _ :: _ |- _ => apply elem_of_cons in H as [?|?]
             | H : ¬ (_ ∧ _) |- _ => apply H; split
             end; try done; try (by left); try (by right); try congruence.
Qed.

Lemma loggedHeader_length key value :
  (String.length (loggedHeader key value) ≤ String.length value)%nat
  ∧ (key = "Authorization" → (20 < String.length value)%nat →
     String.length (loggedHeader key value) = 20%nat)
  ∧ (key = "X-API-Key" → (10 < String.length value)%nat →
     String.length (loggedHeader key value) = 11%nat)
  ∧ (key ≠ "Authorization" → key ≠ "X-API-Key" → loggedHeader key value = value)
  ∧ (key = "Authorization" → (String.length value ≤ 20)%nat →
     loggedHeader key value = value)
  ∧ (key = "X-API-Key" → (String.length value ≤ 10)%nat →
     loggedHeader key value = value).
Proof.
  unfold loggedHeader.
  destruct (decide (key = "Authorization")) as [->|Ha].
  - rewrite bool_decide_eq_true_2 by done. cbn [andb].
    destruct (20 <? String.length value)%nat eqn:Hl.
    + apply Nat.ltb_lt in Hl.
      rewrite !length_append, !length_substring by lia.
      change (String.length "***") with 3%nat.
      split_and!; try done; try lia.
    + apply Nat.ltb_ge in Hl. rewrite bool_decide_eq_false_2 by done. cbn [andb].
      split_and!; try done; try lia.
  - rewrite (bool_decide_eq_false_2 _ Ha). cbn [andb].
    destruct (decide (key = "X-API-Key")) as [->|Hk].
    + rewrite bool_decide_eq_true_2 by done. cbn [andb].
      destruct (10 <? String.length value)%nat eqn:Hl.
      * apply Nat.ltb_lt in Hl.
        rewrite !length_append, !length_substring by lia.
        change (String.length "***") with 3%nat.
        split_and!; try done; try lia.
      * apply Nat.ltb_ge in Hl. split_and!; try done; try lia.
    + rewrite (bool_decide_eq_false_2 _ Hk). cbn [andb].
      split_and!; try done; try lia.
Qed.

(** X29. The headers kept for the log are exactly the non-empty ones among
    the seven listed keys. Each is kept verbatim, except that an
    Authorization value of more than 20 bytes is cut to 20 bytes and an
    X-API-Key value of more than 10 bytes to 11 bytes; shorter secrets are
    kept in full, and no kept value is longer than the header it stands
    for. *)
Theorem extractRelevantHeaders_keeps_and_masks (key : string) :
  let value := GetHeader key in
  match extractRelevantHeaders GetHeader !! key with
  | None => key ∉ headerKeys ∨ value = ""
  | Some kept =>
      key ∈ headerKeys ∧ value ≠ ""
      ∧ (String.length kept ≤ String.length value)%nat
      ∧ (if bool_decide (key = "Authorization") && (20 <? String.length value)%nat
         then String.length kept = 20%nat
         else if bool_decide (key = "X-API-Key") && (10 <? String.length value)%nat
         then String.length kept = 11%nat
         else kept = value)
  end.
Proof.
  intros value. unfold extractRelevantHeaders.
  rewrite extractRelevantHeaders_fold. fold value.
  destruct (decide (key ∈ headerKeys ∧ value ≠ "")) as [[Hin Hv]|Hn].
  - rewrite bool_decide_eq_true_2 by done.
    pose proof (loggedHeader_length key value) as (Hle & Ha & Hk & Ho & Hsa & Hsk).
    split_and!; try done.
    destruct (decide (key = "Authorization")) as [->|Hna].
    + rewrite bool_decide_eq_true_2 by done. cbn [andb].
      destruct (20 <? String.length value)%nat eqn:Hl.
      * apply Nat.ltb_lt in Hl. by apply Ha.
      * apply Nat.ltb_ge in Hl. rewrite bool_decide_eq_false_2 by done. cbn [andb].
        by apply Hsa.
    + rewrite (bool_decide_eq_false_2 _ Hna). cbn [andb].
      destruct (decide (key = "X-API-Key")) as [->|Hnk].
      * rewrite bool_decide_eq_true_2 by done. cbn [andb].
        destruct (10 <? String.length value)%nat eqn:Hl.
        -- apply Nat.ltb_lt in Hl. by apply Hk.
        -- apply Nat.ltb_ge in Hl. by apply Hsk.
      * rewrite (bool_decide_eq_false_2 _ Hnk). cbn [andb]. by apply Ho.
  - rewrite (bool_decide_eq_false_2 _ Hn). rewrite lookup_empty.
    destruct (decide (key ∈ headerKeys)) as [Hin|Hin]; [|by left].
    right. destruct (decide (value = "")) as [|Hv]; [done|]. exfalso. by apply Hn.
Qed.

End Headers.

Section HeaderExamples.
Import Server.

Example extractRelevantHeaders_example :
  extractRelevantHeaders example_headers
  = {[ "Authorization" := "Bearer sk-***defghij"; "X-API-Key" := "k-12345" ]}.
Proof. by vm_compute. Qed.

End HeaderExamples.
